(** * Boggle solver: trie construction and board search

    A shallow embedding of [BoggleSolver.py]: the classes [TrieNode], [Trie]
    and [ValidWordsGenerator] and the entry point [generateValidWords].

    Conventions of the embedding.
    - Python [str] values are [string]s over the 7-bit ASCII range; on that
      range [str.upper] maps the letters a-z to A-Z and fixes every other
      character, and [len] is [String.length].
    - A [dict] keyed by one-character strings is a [gmap string _].
    - The board is a list of row lists, each row an object of its own (the
      shape the driver builds); indexing follows Python, negative indices
      counting from the end and out-of-range indices raising [IndexError].
    - The in-place mutations of the board and of [self.validWords] are
      threaded through an explicit [State]. *)

From stdpp Require Import gmap strings list fin_maps.
From Stdlib Require Import Ascii.

(** ** Strings *)

(** [c.upper()] on one ASCII character. *)
Definition upper_ascii (c : Ascii.ascii) : Ascii.ascii :=
  let n := Ascii.nat_of_ascii c in
  if ((97 <=? n) && (n <=? 122))%nat then Ascii.ascii_of_nat (n - 32) else c.

(** [s.upper()]. *)
Fixpoint upper (s : string) : string :=
  match s with
  | EmptyString => EmptyString
  | String c rest => String (upper_ascii c) (upper rest)
  end.

(** The sentinel that marks a cell as in use. *)
Definition STAR : string := "*".

(** ** The trie *)

Module TrieModel.

(** [class TrieNode]: the fields [valid] and [children]. *)
#[warnings="-register-all"]
Inductive TrieNode : Type :=
  Node (valid : bool) (children : gmap string TrieNode).

Definition valid (n : TrieNode) : bool :=
  match n with Node v _ => v end.

Definition children (n : TrieNode) : gmap string TrieNode :=
  match n with Node _ ch => ch end.

(** [TrieNode()]. *)
Definition new_node : TrieNode := Node false ∅.

Definition minimumValidWordLength : nat := 3.

(** [Trie.insert(word, node)].  The Python method mutates [node] in place;
    here the updated node is returned.  The child under [word[0]] is created
    when it is missing, and only a child created by this very call gets its
    [valid] field set (when [len(word) == 1]). *)
Fixpoint insert (word : string) (node : TrieNode) : TrieNode :=
  match word with
  | EmptyString => node
  | String c rest =>
      let firstLetter := String c EmptyString in
      let child :=
        match children node !! firstLetter with
        | Some ch => ch
        | None => Node (bool_decide (String.length word = 1)) ∅
        end in
      Node (valid node) (<[firstLetter := insert rest child]> (children node))
  end.

(** One iteration of the loop of [Trie.buildRoot]. *)
Definition buildRoot_step (root : TrieNode) (word : string) : TrieNode :=
  if (minimumValidWordLength <=? String.length word)%nat
  then insert (upper word) root
  else root.

(** [Trie.buildRoot], started from an arbitrary root. *)
Definition buildRoot (wordDictionary : list string) (root : TrieNode) : TrieNode :=
  fold_left buildRoot_step wordDictionary root.

(** [Trie(wordDictionary).root]. *)
Definition Trie (wordDictionary : list string) : TrieNode :=
  buildRoot wordDictionary new_node.

(** The keys met when a word is spelled down the trie: its characters, each
    as a one-character string. *)
Fixpoint keys (w : string) : list string :=
  match w with
  | EmptyString => []
  | String c rest => String c EmptyString :: keys rest
  end.

(** Following a list of keys from a node, one [children[k]] at a time. *)
Fixpoint walk (node : TrieNode) (ks : list string) : option TrieNode :=
  match ks with
  | [] => Some node
  | k :: rest =>
      match children node !! k with
      | Some ch => walk ch rest
      | None => None
      end
  end.

End TrieModel.

Import TrieModel.

(** ** Python lists and exceptions *)

Inductive Exception : Type := IndexError.

(** The outcome of running a piece of the program: a value, a raised
    exception, or - an artefact of the model - the recursion budget of [DFS]
    being exhausted. *)
Inductive Result (A : Type) : Type :=
  | Ok (a : A)
  | Raise (e : Exception)
  | OutOfFuel.

Arguments Ok {A} a.
Arguments Raise {A} e.
Arguments OutOfFuel {A}.

Definition result_bind {A B : Type} (f : A → Result B) (r : Result A) : Result B :=
  match r with
  | Ok a => f a
  | Raise e => Raise e
  | OutOfFuel => OutOfFuel
  end.

#[global] Instance result_mbind : MBind Result := @result_bind.

Module Py.

(** The position a Python index denotes in a list of length [len]. *)
Definition index (len : nat) (i : Z) : option nat :=
  if bool_decide (0 ≤ i < Z.of_nat len)%Z then Some (Z.to_nat i)
  else if bool_decide (- Z.of_nat len ≤ i < 0)%Z then Some (Z.to_nat (Z.of_nat len + i))
  else None.

(** [l[i]]. *)
Definition getitem {A : Type} (l : list A) (i : Z) : Result A :=
  match index (length l) i ≫= (λ n, l !! n) with
  | Some x => Ok x
  | None => Raise IndexError
  end.

(** [l[i] = v]. *)
Definition setitem {A : Type} (l : list A) (i : Z) (v : A) : Result (list A) :=
  match index (length l) i with
  | Some n => Ok (<[n := v]> l)
  | None => Raise IndexError
  end.

(** [range(n)]. *)
Definition range (n : nat) : list Z := Z.of_nat <$> seq 0 n.

(** [for x in xs: body(x)], over a state. *)
Fixpoint for_each {A S : Type} (xs : list A) (body : A → S → Result S) (st : S) : Result S :=
  match xs with
  | [] => Ok st
  | x :: rest => st' ← body x st; for_each rest body st'
  end.

End Py.

(** ** The board *)

Abbreviation Board := (list (list string)).

(** [board[row][col]]. *)
Definition getcell (b : Board) (row col : Z) : Result string :=
  r ← Py.getitem b row; Py.getitem r col.

(** [board[row][col] = v]: the row object is fetched and then updated. *)
Definition setcell (b : Board) (row col : Z) (v : string) : Result Board :=
  r ← Py.getitem b row; r' ← Py.setitem r col v; Py.setitem b row r'.

(** ** The search *)

(** The mutable part of a [ValidWordsGenerator]: the board, which is the
    caller's own object, and [self.validWords]. *)
Record State : Type := mkState {
  board : Board;
  validWords : gset string
}.

(** The fields of a [ValidWordsGenerator] fixed by [__init__]. *)
Record ValidWordsGenerator : Type := mkGenerator {
  wordTrie : TrieNode;
  rowLen : nat;
  colLen : nat
}.

Definition directions : list (Z * Z) :=
  [(-1,-1); (-1,0); (-1,1); (0,-1); (0,1); (1,-1); (1,0); (1,1)]%Z.

(** [getAdjCells(x, y)]: the cells the generator yields, in order. *)
Definition getAdjCells (g : ValidWordsGenerator) (x y : Z) : list (Z * Z) :=
  filter
    (λ cell, (0 ≤ cell.1 < Z.of_nat (rowLen g))%Z ∧ (0 ≤ cell.2 < Z.of_nat (colLen g))%Z)
    ((λ move, (x + move.1, y + move.2)%Z) <$> directions).

(** The body of [DFS(row, col, board, trie, incoming_word)], with [self_DFS]
    standing for the recursive call [self.DFS].  [board] and [self.board] are
    one object throughout the program, the board of the state. *)
Definition DFS_body (g : ValidWordsGenerator)
    (self_DFS : Z → Z → TrieNode → string → State → Result State)
    (row col : Z) (trie : TrieNode) (incoming_word : string) (st : State)
    : Result State :=
  cell ← getcell (board st) row col;
  if bool_decide (cell = STAR) then Ok st
  else
    let children := children trie in
    let letter := upper cell in
    b1 ← setcell (board st) row col STAR;
    st2 ←
      match children !! letter with
      | Some child =>
          let incoming_word := incoming_word +:+ letter in
          let found :=
            if valid child && (minimumValidWordLength <=? String.length incoming_word)%nat
            then {[ incoming_word ]} ∪ validWords st
            else validWords st in
          Py.for_each (getAdjCells g row col)
            (λ cell, self_DFS cell.1 cell.2 child incoming_word)
            (mkState b1 found)
      | None => Ok (mkState b1 (validWords st))
      end;
    b3 ← setcell (board st2) row col letter;
    Ok (mkState b3 (validWords st2)).

(** [DFS], the recursion closed.  [depth] is the number of further nested
    recursive calls allowed below this one: a call made with [depth = 0]
    runs its body, but a recursive call it attempts is [OutOfFuel]. *)
Fixpoint DFS (g : ValidWordsGenerator) (depth : nat)
    : Z → Z → TrieNode → string → State → Result State :=
  DFS_body g
    match depth with
    | O => λ _ _ _ _ _, OutOfFuel
    | S d => DFS g d
    end.

(** [findValidWords()]. *)
Definition findValidWords (g : ValidWordsGenerator) (depth : nat) (st : State) : Result State :=
  let root := wordTrie g in
  Py.for_each (Py.range (rowLen g))
    (λ row, Py.for_each (Py.range (colLen g))
       (λ col, DFS g depth row col root ""))
    st.

(** [getValidWords()]: the final state carries the returned set. *)
Definition getValidWords (g : ValidWordsGenerator) (depth : nat) (st : State) : Result State :=
  findValidWords g depth st.

(** What [generateValidWords] returns: the message string or the set. *)
Inductive Answer : Type :=
  | Message (msg : string)
  | Words (ws : gset string).

Definition validBoardSize : nat := 4.

Definition invalid_board_size : string :=
  "Invalid board size. Please use a 4x4 board.".

(** [ValidWordsGenerator(board, wordDictionary)]: the immutable fields. *)
Definition new_generator (b : Board) (wordDictionary : list string) : Result ValidWordsGenerator :=
  let trie := Trie wordDictionary in
  row0 ← Py.getitem b 0%Z;
  Ok (mkGenerator trie (length b) (length row0)).

(** [generateValidWords(board, wordDictionary)] with recursion budget
    [depth] for each [DFS]; the result pairs the content of the caller's
    board object on return with the value returned. *)
Definition generateValidWords_at (depth : nat) (b : Board) (wordDictionary : list string)
    : Result (Board * Answer) :=
  if bool_decide (length b ≠ validBoardSize) then Ok (b, Message invalid_board_size)
  else
    row0 ← Py.getitem b 0%Z;
    if bool_decide (length row0 ≠ validBoardSize) then Ok (b, Message invalid_board_size)
    else
      g ← new_generator b wordDictionary;
      st ← getValidWords g depth (mkState b ∅);
      Ok (board st, Words (validWords st)).

(** The number of cells of a board. *)
Definition cell_count (b : Board) : nat := sum_list (length <$> b).

(** [generateValidWords(board, wordDictionary)]: the budget is the number of
    cells of the board, which [DFS] never exceeds. *)
Definition generateValidWords (b : Board) (wordDictionary : list string)
    : Result (Board * Answer) :=
  generateValidWords_at (cell_count b) b wordDictionary.

(** ** Notions used to state the properties *)

(** The position in the board that the indices [row], [col] denote, when
    both are in range. *)
Definition resolve (b : Board) (row col : Z) : option (nat * nat) :=
  i ← Py.index (length b) row;
  r ← b !! i;
  j ← Py.index (length r) col;
  Some (i, j).

Definition cell_at (b : Board) (i j : nat) : option string :=
  b !! i ≫= λ r, r !! j.

(** The board with position [(i, j)] overwritten. *)
Definition mark (b : Board) (i j : nat) (v : string) : Board :=
  alter (<[j := v]>) i b.

(** The board with every cell uppercased. *)
Definition norm_row (r : list string) : list string := upper <$> r.

Definition norm (b : Board) : Board := norm_row <$> b.

Definition norm_state (st : State) : State :=
  mkState (norm (board st)) (validWords st).

Definition result_map {A B : Type} (f : A → B) (r : Result A) : Result B :=
  match r with
  | Ok a => Ok (f a)
  | Raise e => Raise e
  | OutOfFuel => OutOfFuel
  end.

(** The number of cells not holding the sentinel. *)
Definition unvisited_row (r : list string) : nat :=
  length (filter (λ s, s ≠ STAR) r).

Definition unvisited (b : Board) : nat := sum_list (unvisited_row <$> b).

(** [r] is a value satisfying [P], or a failure allowed by [E]: [E (Some e)]
    speaks of the exception [e], [E None] of the exhausted budget. *)
Definition res_sat {A : Type} (P : A → Prop) (E : option Exception → Prop)
    (r : Result A) : Prop :=
  match r with
  | Ok a => P a
  | Raise e => E (Some e)
  | OutOfFuel => E None
  end.

(** The cell lies in a grid of [rows] by [cols] cells. *)
Definition in_grid (rows cols : nat) (cell : Z * Z) : Prop :=
  (0 ≤ cell.1 < Z.of_nat rows)%Z ∧ (0 ≤ cell.2 < Z.of_nat cols)%Z.

(** Every cell of the generator's grid can be indexed in the board. *)
Definition indexable (g : ValidWordsGenerator) (b : Board) : Prop :=
  ∀ cell, in_grid (rowLen g) (colLen g) cell → is_Some (resolve b cell.1 cell.2).

(** A board of four rows of four cells each. *)
Definition is_4x4 (b : Board) : Prop :=
  length b = validBoardSize ∧ Forall (λ r, length r = validBoardSize) b.

(** Two distinct cells that differ by at most one in row and in column. *)
Definition adjacent (p q : Z * Z) : Prop :=
  p ≠ q ∧ (Z.abs (q.1 - p.1) ≤ 1)%Z ∧ (Z.abs (q.2 - p.2) ≤ 1)%Z.

(** Every cell of the path is adjacent to the next one. *)
Fixpoint chain (path : list (Z * Z)) : Prop :=
  match path with
  | p :: rest =>
      match rest with
      | q :: _ => adjacent p q ∧ chain rest
      | [] => True
      end
  | [] => True
  end.

(** A path of the grid that uses no cell twice. *)
Definition simple_path (rows cols : nat) (path : list (Z * Z)) : Prop :=
  NoDup path ∧ Forall (in_grid rows cols) path ∧ chain path.

(** The uppercased contents of the cells of a path, in order. *)
Fixpoint letters (b : Board) (path : list (Z * Z)) : option (list string) :=
  match path with
  | [] => Some []
  | p :: rest =>
      match getcell b p.1 p.2, letters b rest with
      | Ok s, Some ks => Some (upper s :: ks)
      | _, _ => None
      end
  end.

Fixpoint join (ks : list string) : string :=
  match ks with
  | [] => ""
  | k :: rest => k +:+ join rest
  end.

(** The path spells [w] on the board. *)
Definition spells (b : Board) (path : list (Z * Z)) (w : string) : Prop :=
  join <$> letters b path = Some w.

(** [w] can be traced on the four-by-four board. *)
Definition traceable (b : Board) (w : string) : Prop :=
  ∃ path, simple_path validBoardSize validBoardSize path ∧ spells b path w.

(** The characters of a string. *)
Fixpoint chars (s : string) : list ascii :=
  match s with
  | EmptyString => []
  | String c rest => c :: chars rest
  end.

(** The boards of two states agree once uppercased. *)
Definition same_norm (st st' : State) : Prop := norm (board st') = norm (board st).

(** What is recorded about a word put into [validWords]: a simple path of
    the grid that reads, on the board as it was at the call, the keys [ks]
    leading from the root of the trie to a terminal node. *)
Definition found_ok (g : ValidWordsGenerator) (b0 : Board) (w : string) : Prop :=
  ∃ path ks n,
    simple_path (rowLen g) (colLen g) path
    ∧ letters b0 path = Some ks
    ∧ Forall (λ k, k ≠ STAR) ks
    ∧ w = join ks
    ∧ walk (wordTrie g) ks = Some n
    ∧ valid n = true
    ∧ minimumValidWordLength ≤ String.length w.

(** The board during the search, with [path] the cells in use: a cell not
    holding the sentinel is off the path and reads as it did at the call, up
    to case. *)
Definition board_inv (b0 : Board) (path : list (Z * Z)) (b : Board) : Prop :=
  ∀ row col s, (0 ≤ row)%Z → (0 ≤ col)%Z →
    getcell b row col = Ok s → s ≠ STAR →
    ((row, col) ∉ path) ∧ ∃ s0, getcell b0 row col = Ok s0 ∧ upper s0 = upper s.

(** The situation in which [DFS(row, col, board, trie, incoming_word)] is
    called: [path] is the path walked so far and [ks] the keys read on it. *)
Record call_ok (g : ValidWordsGenerator) (b0 : Board) (path : list (Z * Z)) (ks : list string) (row col : Z)
    (trie : TrieNode) (incoming_word : string) (st : State) : Prop := {
  call_path : simple_path (rowLen g) (colLen g) path;
  call_cell : in_grid (rowLen g) (colLen g) (row, col);
  call_next : ∀ q, last path = Some q → adjacent q (row, col);
  call_letters : letters b0 path = Some ks;
  call_keys : Forall (λ k, k ≠ STAR) ks;
  call_word : incoming_word = join ks;
  call_trie : walk (wordTrie g) ks = Some trie;
  call_board : board_inv b0 path (board st);
  call_found : set_Forall (found_ok g b0) (validWords st)
}.

Definition return_ok (g : ValidWordsGenerator) (b0 : Board) (st st' : State) : Prop :=
  same_norm st st' ∧ set_Forall (found_ok g b0) (validWords st').

(** A word that the search, called at the first cell of [path] with trie
    node [trie] and accumulated string [w], has before it on board [b]: the
    cells of the simple path [path] read the keys [ks], none of them the
    sentinel, and [ks] leads from [trie] to a terminal node. *)
Definition reachable_word (g : ValidWordsGenerator) (path : list (Z * Z))
    (ks : list string) (trie : TrieNode) (w : string) (b : Board) : Prop :=
  simple_path (rowLen g) (colLen g) path
  ∧ letters b path = Some ks
  ∧ Forall (λ k, k ≠ STAR) ks
  ∧ (∃ n, walk trie ks = Some n ∧ valid n = true)
  ∧ minimumValidWordLength ≤ String.length (w +:+ join ks).

(** The cell at position [(i, j)], if there is one, holds no lowercase
    letter. *)
Definition uppercase_at (i j : nat) (b : Board) : Prop :=
  ∀ v, cell_at b i j = Some v → upper v = v.

(** ** Sample inputs *)

Definition sample_board : Board :=
  [["C";"A";"T";"S"]; ["X";"X";"X";"X"]; ["D";"O";"G";"X"]; ["X";"X";"X";"X"]].

Definition lowercase_board : Board :=
  [["c";"a";"t";"s"]; ["X";"X";"X";"X"]; ["D";"O";"G";"X"]; ["X";"X";"X";"X"]].

(** Four rows, the second of five cells. *)
Definition long_row_board : Board :=
  [["C";"A";"T";"S"]; ["X";"X";"X";"X";"S"]; ["D";"O";"G";"X"]; ["X";"X";"X";"X"]].

(** Four rows, the second of three cells. *)
Definition short_row_board : Board :=
  [["C";"A";"T";"S"]; ["X";"X";"X"]; ["D";"O";"G";"X"]; ["X";"X";"X";"X"]].

(** A board on which one word runs through all sixteen cells. *)
Definition snake_board : Board :=
  [["A";"B";"C";"D"]; ["H";"G";"F";"E"]; ["I";"J";"K";"L"]; ["P";"O";"N";"M"]].

Definition star_board : Board :=
  [["C";"A";"*";"S"]; ["X";"X";"X";"X"]; ["D";"O";"G";"X"]; ["X";"X";"X";"X"]].

(** * Properties *)

(** ** Strings *)

Section StringFacts.

Lemma upper_ascii_idemp c : upper_ascii (upper_ascii c) = upper_ascii c.
Proof. destruct c as [[] [] [] [] [] [] [] []]; reflexivity. Qed.

Lemma upper_ascii_star c : upper_ascii c = "*"%char → c = "*"%char.
Proof. destruct c as [[] [] [] [] [] [] [] []]; vm_compute; congruence. Qed.

Lemma upper_idemp s : upper (upper s) = upper s.
Proof. induction s as [|c s IH]; simpl; [done|]. by rewrite upper_ascii_idemp, IH. Qed.

Lemma upper_star s : upper s = STAR ↔ s = STAR.
Proof.
  split; [|by intros ->].
  destruct s as [|c [|c' s]]; simpl; try done.
  intros [= Hc]. by rewrite (upper_ascii_star c Hc).
Qed.

Lemma length_upper s : String.length (upper s) = String.length s.
Proof. induction s as [|c s IH]; simpl; [done|by rewrite IH]. Qed.

Lemma string_app_nil_r s : s +:+ "" = s.
Proof. induction s as [|c s IH]; [done|exact (f_equal (String c) IH)]. Qed.

Lemma string_app_assoc s1 s2 s3 : (s1 +:+ s2) +:+ s3 = s1 +:+ (s2 +:+ s3).
Proof. induction s1 as [|c s1 IH]; [done|exact (f_equal (String c) IH)]. Qed.

Lemma string_app_length s1 s2 :
  String.length (s1 +:+ s2) = String.length s1 + String.length s2.
Proof. induction s1 as [|c s1 IH]; [done|exact (f_equal S IH)]. Qed.

End StringFacts.

(** ** The trie *)

Module TrieFacts.

Lemma valid_insert w t : valid (insert w t) = valid t.
Proof. by destruct w. Qed.

(** Inserting a word whose whole path is already in the trie changes nothing. *)
Lemma insert_present w : ∀ t, is_Some (walk t (keys w)) → insert w t = t.
Proof.
  induction w as [|c w IH]; intros t Hw; [done|].
  simpl in *. destruct (children t !! String c "") as [ch|] eqn:Hch.
  - rewrite (IH ch Hw). rewrite insert_id by done. by destruct t.
  - by destruct Hw.
Qed.

Lemma walk_insert_self w : ∀ t, is_Some (walk (insert w t) (keys w)).
Proof.
  induction w as [|c w IH]; intros t; simpl; [done|].
  rewrite lookup_insert_eq. apply IH.
Qed.

(** Insertion only grows the trie: a path that exists keeps existing. *)
Lemma walk_insert_mono u : ∀ t ks, is_Some (walk t ks) → is_Some (walk (insert u t) ks).
Proof.
  induction u as [|c u IH]; intros t ks Hks; [done|].
  destruct ks as [|k ks]; [done|]. simpl in *.
  destruct (children t !! k) as [ch|] eqn:Hch; [|by destruct Hks].
  destruct (decide (String c "" = k)) as [->|Hne].
  - rewrite lookup_insert_eq, Hch. by apply IH.
  - rewrite lookup_insert_ne, Hch by done. done.
Qed.

Lemma buildRoot_step_mono r w ks :
  is_Some (walk r ks) → is_Some (walk (buildRoot_step r w) ks).
Proof.
  intros Hks. unfold buildRoot_step. case_match; [|done]. by apply walk_insert_mono.
Qed.

Lemma buildRoot_mono d : ∀ r ks, is_Some (walk r ks) → is_Some (walk (buildRoot d r) ks).
Proof.
  induction d as [|w d IH]; intros r ks Hks; [done|].
  simpl. apply IH. by apply buildRoot_step_mono.
Qed.

Lemma buildRoot_app d1 d2 r : buildRoot (d1 ++ d2) r = buildRoot d2 (buildRoot d1 r).
Proof. apply fold_left_app. Qed.

(** A terminal node reached in [insert u t] either ends the word [u] or was
    terminal and reachable in [t] already. *)
Lemma walk_insert_valid u : ∀ t ks n,
  walk (insert u t) ks = Some n → valid n = true →
  ks = keys u ∨ ∃ n', walk t ks = Some n' ∧ valid n' = true.
Proof.
  induction u as [|c u IH]; intros t ks n Hw Hv; [right; eauto|].
  destruct ks as [|k ks].
  { right. exists t. split; [done|]. simpl in Hw. by simplify_eq. }
  simpl in Hw. destruct (decide (String c "" = k)) as [<-|Hne].
  - rewrite lookup_insert_eq in Hw.
    destruct (IH _ _ _ Hw Hv) as [->|(n' & Hw' & Hv')]; [by left|].
    destruct (children t !! String c "") as [ch|] eqn:Hch.
    + right. exists n'. simpl. by rewrite Hch.
    + left. destruct ks as [|k' ks]; simpl in Hw'.
      * simplify_eq. simpl in Hv'. apply bool_decide_eq_true in Hv'.
        destruct u; [done|simpl in Hv'; lia].
      * by rewrite lookup_empty in Hw'.
  - rewrite lookup_insert_ne in Hw by done. right. exists n. by simpl.
Qed.

Lemma buildRoot_valid d : ∀ r ks n,
  walk (buildRoot d r) ks = Some n → valid n = true →
  (∃ u, u ∈ d ∧ minimumValidWordLength ≤ String.length u ∧ ks = keys (upper u))
  ∨ ∃ n', walk r ks = Some n' ∧ valid n' = true.
Proof.
  induction d as [|w d IH]; intros r ks n Hw Hv; [right; eauto|].
  simpl in Hw. destruct (IH _ _ _ Hw Hv) as [(u & Hu & Hlen & ->)|(n' & Hw' & Hv')].
  { left. exists u. split_and!; [by right|done..]. }
  unfold buildRoot_step in Hw'.
  destruct (minimumValidWordLength <=? String.length w)%nat eqn:Hlen; [|right; eauto].
  apply Nat.leb_le in Hlen.
  destruct (walk_insert_valid _ _ _ _ Hw' Hv') as [->|?]; [|by right].
  left. exists w. split_and!; [by left|done..].
Qed.

(** Every terminal node of the trie of a dictionary ends the uppercased form
    of an entry of at least three characters. *)
Lemma Trie_valid d ks n :
  walk (Trie d) ks = Some n → valid n = true →
  ∃ u, u ∈ d ∧ minimumValidWordLength ≤ String.length u ∧ ks = keys (upper u).
Proof.
  intros Hw Hv. destruct (buildRoot_valid _ _ _ _ Hw Hv) as [?|(n' & Hw' & Hv')]; [done|].
  destruct ks as [|k ks]; simpl in Hw'; [by simplify_eq|by rewrite lookup_empty in Hw'].
Qed.

End TrieFacts.

(** ** Python indexing *)

Section IndexFacts.

Context {A : Type}.
Implicit Types l : list A.

Lemma index_lt len i n : Py.index len i = Some n → n < len.
Proof.
  unfold Py.index. repeat case_bool_decide; intros; simplify_eq; lia.
Qed.

Lemma index_nonneg len i n : (0 ≤ i)%Z → Py.index len i = Some n → n = Z.to_nat i.
Proof.
  unfold Py.index. repeat case_bool_decide; intros; simplify_eq; lia.
Qed.

Lemma index_in_range len i : (0 ≤ i < Z.of_nat len)%Z → Py.index len i = Some (Z.to_nat i).
Proof. intros. unfold Py.index. by rewrite bool_decide_eq_true_2. Qed.

Lemma getitem_index l i :
  Py.getitem l i =
    match Py.index (length l) i with
    | Some n => match l !! n with Some x => Ok x | None => Raise IndexError end
    | None => Raise IndexError
    end.
Proof. unfold Py.getitem. by destruct (Py.index _ _). Qed.

End IndexFacts.

Section BoardFacts.

Implicit Types b : Board.

Lemma resolve_cell_at b row col i j :
  resolve b row col = Some (i, j) → is_Some (cell_at b i j).
Proof.
  unfold resolve, cell_at. intros H.
  destruct (Py.index (length b) row) as [i'|]; simpl in H; [|done].
  destruct (b !! i') as [r|] eqn:Hr; simpl in H; [|done].
  destruct (Py.index (length r) col) as [j'|] eqn:Hj; simpl in H; [|done].
  simplify_eq. rewrite Hr. simpl. apply lookup_lt_is_Some. by eapply index_lt.
Qed.

Lemma getcell_resolve b row col :
  getcell b row col =
    match resolve b row col with
    | Some (i, j) =>
        match cell_at b i j with Some s => Ok s | None => Raise IndexError end
    | None => Raise IndexError
    end.
Proof.
  unfold getcell, resolve, cell_at. rewrite getitem_index.
  destruct (Py.index (length b) row) as [i|]; simpl; [|done].
  destruct (b !! i) as [r|] eqn:Hr; simpl; [|done].
  change (Py.getitem r col = match Py.index (length r) col ≫= (λ j, Some (i, j)) with
    | Some (i0, j) => match b !! i0 ≫= (λ r0, r0 !! j) with Some s => Ok s | None => Raise IndexError end
    | None => Raise IndexError end).
  rewrite getitem_index.
  destruct (Py.index (length r) col) as [j|]; simpl; [|done].
  by rewrite Hr.
Qed.

Lemma setcell_resolve b row col v :
  setcell b row col v =
    match resolve b row col with
    | Some (i, j) => Ok (mark b i j v)
    | None => Raise IndexError
    end.
Proof.
  unfold setcell, resolve, mark. rewrite getitem_index.
  destruct (Py.index (length b) row) as [i|] eqn:Hi; simpl; [|done].
  destruct (b !! i) as [r|] eqn:Hr; simpl; [|done].
  unfold mbind, result_mbind, result_bind, Py.setitem.
  destruct (Py.index (length r) col) as [j|]; simpl; [|done].
  rewrite Hi. f_equal. rewrite list_insert_alter.
  apply list_alter_ext; [|done]. intros x Hx. by simplify_eq.
Qed.

Lemma length_norm b : length (norm b) = length b.
Proof. apply length_fmap. Qed.

Lemma length_norm_row r : length (norm_row r) = length r.
Proof. apply length_fmap. Qed.

Lemma resolve_norm b row col : resolve (norm b) row col = resolve b row col.
Proof.
  unfold resolve, norm. rewrite length_fmap.
  destruct (Py.index (length b) row) as [i|]; simpl; [|done].
  rewrite list_lookup_fmap. destruct (b !! i) as [r|]; simpl; [|done].
  unfold norm_row. by rewrite length_fmap.
Qed.

Lemma resolve_mark b i j v row col :
  resolve (mark b i j v) row col = resolve b row col.
Proof.
  unfold resolve, mark. rewrite length_alter.
  destruct (Py.index (length b) row) as [i'|]; simpl; [|done].
  rewrite list_lookup_alter. case_decide as Hi; [|done].
  subst i'. destruct (b !! i) as [r|]; simpl; [|done].
  by rewrite length_insert.
Qed.

Lemma cell_at_norm b i j : cell_at (norm b) i j = upper <$> cell_at b i j.
Proof.
  unfold cell_at, norm. rewrite list_lookup_fmap.
  destruct (b !! i) as [r|]; simpl; [|done].
  unfold norm_row. by rewrite list_lookup_fmap.
Qed.

Lemma cell_at_mark b i j v i' j' :
  cell_at (mark b i j v) i' j' =
    if decide ((i, j) = (i', j')) then (λ _, v) <$> cell_at b i j else cell_at b i' j'.
Proof.
  unfold cell_at, mark. rewrite list_lookup_alter.
  destruct (decide (i = i')) as [<-|Hi].
  - destruct (b !! i) as [r|]; simpl; [|by case_decide].
    destruct (decide (j = j')) as [<-|Hj].
    + rewrite decide_True by done. destruct (r !! j) eqn:E; simpl.
      * apply list_lookup_insert_eq. by eapply lookup_lt_Some.
      * rewrite list_insert_ge; [done|]. by apply lookup_ge_None.
    + rewrite decide_False by congruence. by apply list_lookup_insert_ne.
  - by rewrite decide_False by congruence.
Qed.

Lemma norm_mark b i j v : norm (mark b i j v) = mark (norm b) i j (upper v).
Proof.
  unfold norm, mark. apply list_fmap_alter, Forall_forall. intros r _.
  unfold norm_row. apply list_fmap_insert.
Qed.

Lemma mark_mark b i j v v' : mark (mark b i j v) i j v' = mark b i j v'.
Proof.
  unfold mark. rewrite list_alter_alter_eq. apply list_alter_ext; [|done].
  intros r _. simpl. apply list_insert_insert_eq.
Qed.

Lemma mark_id b i j s : cell_at b i j = Some s → mark b i j s = b.
Proof.
  unfold cell_at, mark. intros H.
  destruct (b !! i) as [r|] eqn:Hr; simpl in H; [|done].
  rewrite <- (list_alter_id id b i) at 2 by done.
  apply list_alter_ext; [|done]. intros x Hx. simplify_eq. by apply list_insert_id.
Qed.

Lemma getcell_norm b row col :
  getcell (norm b) row col = result_map upper (getcell b row col).
Proof.
  rewrite !getcell_resolve, resolve_norm.
  destruct (resolve b row col) as [[i j]|]; [|done].
  rewrite cell_at_norm. by destruct (cell_at b i j).
Qed.

Lemma setcell_norm b row col v :
  setcell (norm b) row col (upper v) = result_map norm (setcell b row col v).
Proof.
  rewrite !setcell_resolve, resolve_norm.
  destruct (resolve b row col) as [[i j]|]; [|done].
  simpl. by rewrite norm_mark.
Qed.

(** Boards equal after uppercasing answer index lookups alike. *)
Lemma resolve_norm_eq b b' row col :
  norm b = norm b' → resolve b row col = resolve b' row col.
Proof. intros H. by rewrite <- (resolve_norm b), H, resolve_norm. Qed.

Lemma unvisited_row_norm r : unvisited_row (norm_row r) = unvisited_row r.
Proof.
  unfold unvisited_row, norm_row. induction r as [|s r IH]; [done|].
  rewrite fmap_cons, !filter_cons.
  destruct (decide (s = STAR)) as [->|Hs].
  - rewrite !decide_False by (by intros []). done.
  - rewrite !decide_True; [simpl; by rewrite IH|done|by rewrite upper_star].
Qed.

Lemma unvisited_norm b : unvisited (norm b) = unvisited b.
Proof.
  unfold unvisited, norm. induction b as [|r b IH]; [done|].
  simpl. rewrite unvisited_row_norm. f_equal. exact IH.
Qed.

Lemma unvisited_row_insert r : ∀ j s,
  r !! j = Some s → s ≠ STAR →
  S (unvisited_row (<[j := STAR]> r)) = unvisited_row r.
Proof.
  unfold unvisited_row. induction r as [|x r IH]; intros [|j] s Hj Hs; simplify_eq/=.
  - rewrite (filter_cons _ STAR), decide_False by (intros H; by apply H).
    by rewrite (filter_cons _ s), decide_True by done.
  - rewrite !filter_cons. case_decide; simpl; by rewrite <- (IH j s).
Qed.

Lemma unvisited_mark b j s : ∀ i,
  cell_at b i j = Some s → s ≠ STAR →
  S (unvisited (mark b i j STAR)) = unvisited b.
Proof.
  unfold unvisited, cell_at, mark.
  induction b as [|r b IH]; intros [|i] Hc Hs; simplify_eq/=.
  - by rewrite <- (unvisited_row_insert r j s).
  - rewrite <- (IH i) by done. lia.
Qed.

Lemma unvisited_le_cell_count b : unvisited b ≤ cell_count b.
Proof.
  unfold unvisited, cell_count. induction b as [|r b IH]; simpl; [done|].
  pose proof (length_filter (λ s, s ≠ STAR) r) as Hr.
  change (list_fmap (list string) nat unvisited_row b) with (unvisited_row <$> b).
  change (list_fmap (list string) nat length b) with (length <$> b).
  unfold unvisited_row at 1. lia.
Qed.

End BoardFacts.

(** ** Results and loops *)

Section ResultFacts.

Lemma res_sat_bind {A B : Type} (P' : A → Prop) (P : B → Prop) E (r : Result A) (f : A → Result B) :
  res_sat P' E r → (∀ a, P' a → res_sat P E (f a)) → res_sat P E (r ≫= f).
Proof. destruct r; simpl; auto. Qed.

Lemma res_sat_mono {A : Type} (P P' : A → Prop) (E E' : option Exception → Prop) r :
  res_sat P E r → (∀ a, P a → P' a) → (∀ e, E e → E' e) → res_sat P' E' r.
Proof. destruct r; simpl; auto. Qed.

Lemma for_each_sat {A S : Type} (P : S → Prop) E (xs : list A) (body : A → S → Result S) :
  (∀ x s, x ∈ xs → P s → res_sat P E (body x s)) →
  ∀ st, P st → res_sat P E (Py.for_each xs body st).
Proof.
  induction xs as [|x xs IH]; intros Hbody st Hst; [done|].
  simpl. eapply res_sat_bind.
  - apply Hbody; [by left|done].
  - intros st' Hst'. apply IH; [|done]. intros y s Hy. apply Hbody. by right.
Qed.

End ResultFacts.

(** ** The search leaves the board as it was, up to case *)

Section Restoration.

Context (g : ValidWordsGenerator).

Lemma DFS_body_norm self_DFS :
  (∀ r c t w s, res_sat (same_norm s) (λ _, True) (self_DFS r c t w s)) →
  ∀ row col trie w st,
    res_sat (same_norm st) (λ _, True) (DFS_body g self_DFS row col trie w st).
Proof.
  intros Hrec row col trie w st. unfold DFS_body.
  rewrite getcell_resolve, (setcell_resolve _ _ _ STAR).
  destruct (resolve (board st) row col) as [[i j]|] eqn:Hres; [|done].
  destruct (cell_at (board st) i j) as [s|] eqn:Hs; [|done].
  simpl. case_bool_decide as Hstar; [done|].
  simpl. eapply (res_sat_bind (λ st2, norm (board st2) = norm (mark (board st) i j STAR))).
  - destruct (children trie !! upper s) as [child|]; [|done].
    apply for_each_sat; [|done].
    intros cell s2 _ Hs2. eapply res_sat_mono; [apply Hrec| |done].
    intros s3 Hs3. unfold same_norm in Hs3. congruence.
  - intros st2 H2. rewrite setcell_resolve.
    rewrite (resolve_norm_eq _ _ _ _ H2), resolve_mark, Hres. simpl.
    unfold same_norm. simpl.
    rewrite norm_mark, H2, norm_mark, mark_mark, upper_idemp.
    apply mark_id. by rewrite cell_at_norm, Hs.
Qed.

Lemma DFS_norm depth : ∀ row col trie w st,
  res_sat (same_norm st) (λ _, True) (DFS g depth row col trie w st).
Proof.
  induction depth as [|d IH]; simpl; apply DFS_body_norm; [done|apply IH].
Qed.

Lemma getAdjCells_in_grid x y cell :
  cell ∈ getAdjCells g x y → in_grid (rowLen g) (colLen g) cell.
Proof. unfold getAdjCells. rewrite list_elem_of_filter. by intros [? _]. Qed.

Lemma indexable_norm b b' : norm b' = norm b → indexable g b → indexable g b'.
Proof. intros H Hb cell Hc. rewrite (resolve_norm_eq _ _ _ _ H). by apply Hb. Qed.

(** *** Recursion budget *)

Lemma DFS_body_fuel self_DFS n :
  (∀ r c t w s, S (unvisited (board s)) ≤ n →
     res_sat (same_norm s) is_Some (self_DFS r c t w s)) →
  ∀ row col trie w st, unvisited (board st) ≤ n →
    res_sat (same_norm st) is_Some (DFS_body g self_DFS row col trie w st).
Proof.
  intros Hrec row col trie w st Hn. unfold DFS_body.
  rewrite getcell_resolve, (setcell_resolve _ _ _ STAR).
  destruct (resolve (board st) row col) as [[i j]|] eqn:Hres; [|by eexists].
  destruct (cell_at (board st) i j) as [s|] eqn:Hs; [|by eexists].
  simpl. case_bool_decide as Hstar; [done|].
  pose proof (unvisited_mark _ _ _ _ Hs Hstar) as Hm.
  simpl. eapply (res_sat_bind (λ st2, norm (board st2) = norm (mark (board st) i j STAR))).
  - destruct (children trie !! upper s) as [child|]; [|done].
    apply for_each_sat; [|done].
    intros cell s2 _ Hs2. eapply res_sat_mono; [apply Hrec| |done].
    + rewrite <- unvisited_norm, Hs2, unvisited_norm. lia.
    + intros s3 Hs3. unfold same_norm in Hs3. congruence.
  - intros st2 H2. rewrite setcell_resolve.
    rewrite (resolve_norm_eq _ _ _ _ H2), resolve_mark, Hres. simpl.
    unfold same_norm. simpl.
    rewrite norm_mark, H2, norm_mark, mark_mark, upper_idemp.
    apply mark_id. by rewrite cell_at_norm, Hs.
Qed.

(** A budget of as many nested calls as there are cells without the sentinel
    is never exhausted. *)
Lemma DFS_fuel depth : ∀ row col trie w st,
  unvisited (board st) ≤ depth →
  res_sat (same_norm st) is_Some (DFS g depth row col trie w st).
Proof.
  induction depth as [|d IH]; simpl; intros row col trie w st Hn.
  - apply (DFS_body_fuel _ 0); [|done]. intros; lia.
  - apply (DFS_body_fuel _ (S d)); [|done]. intros. apply IH. lia.
Qed.

(** *** No exception inside the grid *)

Lemma DFS_body_noraise self_DFS :
  (∀ r c t w s, in_grid (rowLen g) (colLen g) (r, c) → indexable g (board s) →
     res_sat (same_norm s) (λ e, e = None) (self_DFS r c t w s)) →
  ∀ row col trie w st, in_grid (rowLen g) (colLen g) (row, col) → indexable g (board st) →
    res_sat (same_norm st) (λ e, e = None) (DFS_body g self_DFS row col trie w st).
Proof.
  intros Hrec row col trie w st Hrc Hb. unfold DFS_body.
  rewrite getcell_resolve, (setcell_resolve _ _ _ STAR).
  destruct (Hb _ Hrc) as [[i j] Hres]. simpl in Hres. rewrite Hres.
  destruct (resolve_cell_at _ _ _ _ _ Hres) as [s Hs]. rewrite Hs.
  simpl. case_bool_decide as Hstar; [done|].
  simpl. eapply (res_sat_bind (λ st2, norm (board st2) = norm (mark (board st) i j STAR))).
  - destruct (children trie !! upper s) as [child|]; [|done].
    apply for_each_sat; [|done].
    intros [r c] s2 Hcell Hs2. eapply res_sat_mono; [apply Hrec| |done].
    + by eapply getAdjCells_in_grid.
    + eapply indexable_norm; [exact Hs2|].
      intros cell' Hc'. rewrite resolve_mark. by apply Hb.
    + intros s3 Hs3. unfold same_norm in Hs3. congruence.
  - intros st2 H2. rewrite setcell_resolve.
    rewrite (resolve_norm_eq _ _ _ _ H2), resolve_mark, Hres. simpl.
    unfold same_norm. simpl.
    rewrite norm_mark, H2, norm_mark, mark_mark, upper_idemp.
    apply mark_id. by rewrite cell_at_norm, Hs.
Qed.

Lemma DFS_noraise depth : ∀ row col trie w st,
  in_grid (rowLen g) (colLen g) (row, col) → indexable g (board st) →
  res_sat (same_norm st) (λ e, e = None) (DFS g depth row col trie w st).
Proof.
  induction depth as [|d IH]; simpl; apply DFS_body_noraise; [done|apply IH].
Qed.

(** *** A larger budget does not change a result *)

Lemma for_each_mono {A S : Type} (xs : list A) (body body' : A → S → Result S) :
  (∀ x s, body x s ≠ OutOfFuel → body' x s = body x s) →
  ∀ st, Py.for_each xs body st ≠ OutOfFuel →
    Py.for_each xs body' st = Py.for_each xs body st.
Proof.
  intros Hb. induction xs as [|x xs IH]; intros st Hne; [done|].
  simpl in *. destruct (body x st) as [s'| |] eqn:Hx.
  - rewrite Hb, Hx by congruence. simpl. by apply IH.
  - by rewrite Hb, Hx by congruence.
  - done.
Qed.

Lemma DFS_body_mono self_DFS self_DFS' :
  (∀ r c t w s, self_DFS r c t w s ≠ OutOfFuel → self_DFS' r c t w s = self_DFS r c t w s) →
  ∀ row col trie w st,
    DFS_body g self_DFS row col trie w st ≠ OutOfFuel →
    DFS_body g self_DFS' row col trie w st = DFS_body g self_DFS row col trie w st.
Proof.
  intros Hrec row col trie w st. unfold DFS_body.
  destruct (getcell (board st) row col) as [s| |]; [|done..].
  simpl. case_bool_decide; [done|].
  destruct (setcell (board st) row col STAR) as [b1| |]; [|done..].
  simpl. destruct (children trie !! upper s) as [child|]; [|done].
  intros Hne.
  rewrite (for_each_mono _
    (λ cell, self_DFS cell.1 cell.2 child (w +:+ upper s))
    (λ cell, self_DFS' cell.1 cell.2 child (w +:+ upper s))).
  - done.
  - intros x s1. apply Hrec.
  - intros Hloop. by rewrite Hloop in Hne.
Qed.

Lemma DFS_mono d : ∀ d' row col trie w st,
  d ≤ d' → DFS g d row col trie w st ≠ OutOfFuel →
  DFS g d' row col trie w st = DFS g d row col trie w st.
Proof.
  induction d as [|d IH]; intros d' row col trie w st Hd Hne.
  - destruct d'; [done|]. simpl in *. by apply DFS_body_mono.
  - destruct d' as [|d']; [lia|]. simpl in *.
    apply DFS_body_mono; [|done]. intros. apply IH; [lia|done].
Qed.

(** *** The search does not tell a board from its uppercased form *)

Lemma for_each_commute {A S : Type} (h : S → S) (xs : list A) (body : A → S → Result S) :
  (∀ x s, body x (h s) = result_map h (body x s)) →
  ∀ st, Py.for_each xs body (h st) = result_map h (Py.for_each xs body st).
Proof.
  intros Hb. induction xs as [|x xs IH]; intros st; [done|].
  simpl. rewrite Hb. destruct (body x st); simpl; [apply IH|done..].
Qed.

Lemma DFS_body_commute self_DFS :
  (∀ r c t w s, self_DFS r c t w (norm_state s) = result_map norm_state (self_DFS r c t w s)) →
  ∀ row col trie w st,
    DFS_body g self_DFS row col trie w (norm_state st)
    = result_map norm_state (DFS_body g self_DFS row col trie w st).
Proof.
  intros Hrec row col trie w st. unfold DFS_body. simpl.
  rewrite getcell_norm.
  destruct (getcell (board st) row col) as [s| |]; simpl; [|done..].
  rewrite (bool_decide_ext _ _ (upper_star s)). case_bool_decide; [done|].
  rewrite upper_idemp.
  change (setcell (norm (board st)) row col STAR)
    with (setcell (norm (board st)) row col (upper STAR)).
  rewrite setcell_norm.
  destruct (setcell (board st) row col STAR) as [b1| |]; simpl; [|done..].
  assert (∀ st2 : State,
    (setcell (norm (board st2)) row col (upper s) ≫= λ b3, Ok (mkState b3 (validWords st2)))
    = result_map norm_state
        (setcell (board st2) row col (upper s) ≫= λ b3, Ok (mkState b3 (validWords st2))))
    as Hfin.
  { intros st2. rewrite <- (upper_idemp s) at 1. rewrite setcell_norm.
    by destruct (setcell (board st2) row col (upper s)). }
  destruct (children trie !! upper s) as [child|]; simpl.
  - match goal with
    | |- context [Py.for_each ?xs ?body (mkState (norm b1) ?f)] =>
        change (mkState (norm b1) f) with (norm_state (mkState b1 f));
        rewrite (for_each_commute norm_state xs body) by (intros; apply Hrec);
        destruct (Py.for_each xs body (mkState b1 f)) as [st2| |]; simpl; [|done..]
    end.
    apply Hfin.
  - apply (Hfin (mkState b1 (validWords st))).
Qed.

Lemma DFS_commute depth : ∀ row col trie w st,
  DFS g depth row col trie w (norm_state st)
  = result_map norm_state (DFS g depth row col trie w st).
Proof.
  induction depth as [|d IH]; simpl; apply DFS_body_commute; [done|apply IH].
Qed.

(** *** A board without lowercase letters is returned exactly *)

Lemma DFS_body_normal self_DFS :
  (∀ r c t w s, norm (board s) = board s →
     res_sat (λ s', board s' = board s) (λ _, True) (self_DFS r c t w s)) →
  ∀ row col trie w st, norm (board st) = board st →
    res_sat (λ s', board s' = board st) (λ _, True) (DFS_body g self_DFS row col trie w st).
Proof.
  intros Hrec row col trie w st Hn. unfold DFS_body.
  rewrite getcell_resolve, (setcell_resolve _ _ _ STAR).
  destruct (resolve (board st) row col) as [[i j]|] eqn:Hres; [|done].
  destruct (cell_at (board st) i j) as [s|] eqn:Hs; [|done].
  simpl. case_bool_decide as Hstar; [done|].
  assert (upper s = s) as Hup.
  { pose proof (cell_at_norm (board st) i j) as Hc. rewrite Hn, Hs in Hc.
    simpl in Hc. congruence. }
  simpl. eapply (res_sat_bind (λ st2, board st2 = mark (board st) i j STAR)).
  - destruct (children trie !! upper s) as [child|]; [|done].
    apply for_each_sat; [|done].
    intros cell s2 _ Hs2. eapply res_sat_mono; [apply Hrec| |done].
    + by rewrite Hs2, norm_mark, Hn.
    + intros s3 Hs3. congruence.
  - intros st2 H2. rewrite setcell_resolve, H2, resolve_mark, Hres. simpl.
    rewrite mark_mark, Hup. by apply mark_id.
Qed.

Lemma DFS_normal depth : ∀ row col trie w st,
  norm (board st) = board st →
  res_sat (λ s', board s' = board st) (λ _, True) (DFS g depth row col trie w st).
Proof.
  induction depth as [|d IH]; simpl; apply DFS_body_normal; [done|apply IH].
Qed.

End Restoration.

(** ** Paths *)

Section PathFacts.

Lemma join_snoc ks k : join (ks ++ [k]) = join ks +:+ k.
Proof.
  induction ks as [|k' ks IH]; simpl.
  - apply string_app_nil_r.
  - by rewrite IH, string_app_assoc.
Qed.

Lemma join_keys w : join (keys w) = w.
Proof. induction w as [|c w IH]; [done|]. simpl. by rewrite IH. Qed.

Lemma length_keys w : length (keys w) = String.length w.
Proof. induction w as [|c w IH]; [done|]. simpl. by rewrite IH. Qed.

Lemma letters_length b path ks : letters b path = Some ks → length ks = length path.
Proof.
  revert ks. induction path as [|p path IH]; intros ks H; simpl in H; [by simplify_eq|].
  destruct (getcell b p.1 p.2); [|done..].
  destruct (letters b path) as [ks'|]; [|done].
  simplify_eq. simpl. by rewrite (IH ks').
Qed.

Lemma letters_snoc b path ks p s :
  letters b path = Some ks → getcell b p.1 p.2 = Ok s →
  letters b (path ++ [p]) = Some (ks ++ [upper s]).
Proof.
  revert ks. induction path as [|q path IH]; intros ks H Hp; simpl in *.
  - simplify_eq. by rewrite Hp.
  - destruct (getcell b q.1 q.2); [|done..].
    destruct (letters b path) as [ks'|]; [|done].
    simplify_eq. by rewrite (IH ks').
Qed.

Lemma chain_snoc path p :
  chain path → (∀ q, last path = Some q → adjacent q p) → chain (path ++ [p]).
Proof.
  induction path as [|q path IH]; intros Hc Hl; [done|].
  destruct path as [|q' path].
  - simpl. split; [|done]. by apply Hl.
  - destruct Hc as [Hq Hc]. split; [done|]. apply IH; [done|].
    intros q0 Hq0. apply Hl. by rewrite last_cons_cons.
Qed.

Lemma walk_app t ks ks' : walk t (ks ++ ks') = walk t ks ≫= λ n, walk n ks'.
Proof.
  revert t. induction ks as [|k ks IH]; intros t; [done|].
  simpl. destruct (children t !! k); [apply IH|done].
Qed.

Lemma getAdjCells_adjacent g x y cell : cell ∈ getAdjCells g x y → adjacent (x, y) cell.
Proof.
  unfold getAdjCells. rewrite list_elem_of_filter, list_elem_of_fmap.
  intros [_ (move & -> & Hm)]. unfold directions in Hm.
  repeat (apply elem_of_cons in Hm as [->|Hm]); [..|by apply elem_of_nil in Hm];
    (split; [intros [=]; lia|simpl; lia]).
Qed.

Lemma resolve_nonneg b row col i j :
  (0 ≤ row)%Z → (0 ≤ col)%Z → resolve b row col = Some (i, j) →
  i = Z.to_nat row ∧ j = Z.to_nat col.
Proof.
  intros Hr Hc. unfold resolve.
  destruct (Py.index (length b) row) as [i'|] eqn:Hi; simpl; [|done].
  destruct (b !! i') as [r|]; simpl; [|done].
  destruct (Py.index (length r) col) as [j'|] eqn:Hj; simpl; [|done].
  intros [= <- <-]. split; by eapply index_nonneg.
Qed.

(** Reading a cell of a board one of whose cells was overwritten. *)
Lemma getcell_mark b row col i j v row' col' :
  (0 ≤ row)%Z → (0 ≤ col)%Z → (0 ≤ row')%Z → (0 ≤ col')%Z →
  resolve b row col = Some (i, j) →
  getcell (mark b i j v) row' col'
  = if decide ((row, col) = (row', col')) then Ok v else getcell b row' col'.
Proof.
  intros Hr Hc Hr' Hc' Hres. rewrite !getcell_resolve, resolve_mark.
  destruct (resolve_nonneg _ _ _ _ _ Hr Hc Hres) as [-> ->].
  case_decide as Heq.
  - simplify_eq. rewrite Hres, cell_at_mark, decide_True by done.
    by destruct (resolve_cell_at _ _ _ _ _ Hres) as [s ->].
  - destruct (resolve b row' col') as [[i' j']|] eqn:Hres'; [|done].
    destruct (resolve_nonneg _ _ _ _ _ Hr' Hc' Hres') as [-> ->].
    rewrite cell_at_mark, decide_False; [done|].
    intros [= Hi Hj]. apply Heq. f_equal; lia.
Qed.

Lemma getcell_norm_eq b b' row col s :
  norm b' = norm b → getcell b' row col = Ok s →
  ∃ s', getcell b row col = Ok s' ∧ upper s' = upper s.
Proof.
  intros Hn Hs. pose proof (getcell_norm b' row col) as H'.
  rewrite Hn, getcell_norm, Hs in H'.
  destruct (getcell b row col) as [s'| |]; simpl in H'; [|done..].
  exists s'. split; [done|congruence].
Qed.

End PathFacts.

(** ** Every word found is a word of the trie traced on the board *)

Section Soundness.

Context (g : ValidWordsGenerator) (b0 : Board).

Lemma board_inv_norm path b b' : norm b' = norm b → board_inv b0 path b → board_inv b0 path b'.
Proof.
  intros Hn Hb row col s Hr Hc Hs Hstar.
  destruct (getcell_norm_eq _ _ _ _ _ Hn Hs) as (s' & Hs' & Hup).
  destruct (Hb row col s' Hr Hc Hs') as [Hp (s0 & Hs0 & Hup0)].
  - intros ->. apply Hstar. apply upper_star. by rewrite <- Hup.
  - split; [done|]. exists s0. split; [done|congruence].
Qed.

Lemma DFS_body_sound self_DFS :
  (∀ path ks r c t w s, call_ok g b0 path ks r c t w s →
     res_sat (return_ok g b0 s) (λ _, True) (self_DFS r c t w s)) →
  ∀ path ks row col trie w st, call_ok g b0 path ks row col trie w st →
    res_sat (return_ok g b0 st) (λ _, True) (DFS_body g self_DFS row col trie w st).
Proof.
  intros Hrec path ks row col trie w st [[Hnd [Hgrid Hchain]] Hcell Hnext Hlet Hks -> Htrie Hinv Hfound].
  unfold DFS_body.
  destruct (getcell (board st) row col) as [s| |] eqn:Hget; [|done..].
  cbn [mbind result_mbind result_bind]. case_bool_decide as Hstar; [done|].
  destruct Hcell as [Hrow Hcol]. simpl in Hrow, Hcol.
  destruct (Hinv row col s) as [Hfresh (s0 & Hs0 & Hup)]; [lia|lia|done..|].
  rewrite getcell_resolve in Hget. rewrite (setcell_resolve _ _ _ STAR).
  destruct (resolve (board st) row col) as [[i j]|] eqn:Hres; [|done].
  destruct (cell_at (board st) i j) as [s'|] eqn:Hs; [|done].
  injection Hget as ->.
  set (path' := path ++ [(row, col)]).
  set (ks' := ks ++ [upper s]).
  assert (simple_path (rowLen g) (colLen g) path') as Hpath'.
  { split_and!.
    - apply NoDup_app. split_and!; [done| |apply NoDup_singleton].
      intros x Hx ->%list_elem_of_singleton. done.
    - apply Forall_app. split; [done|]. by apply Forall_singleton.
    - by apply chain_snoc. }
  assert (letters b0 path' = Some ks') as Hlet'.
  { unfold ks'. rewrite <- Hup. by apply letters_snoc. }
  assert (Forall (λ k, k ≠ STAR) ks') as Hks'.
  { apply Forall_app. split; [done|]. apply Forall_singleton. by rewrite upper_star. }
  assert (board_inv b0 path' (mark (board st) i j STAR)) as Hinv'.
  { intros row' col' s' Hr' Hc' Hs' Hstar'.
    rewrite (getcell_mark _ row col) in Hs' by (done || lia).
    case_decide as Heq; [by simplify_eq|].
    destruct (Hinv row' col' s' Hr' Hc' Hs' Hstar') as [Hp Hrest].
    split; [|done]. unfold path'. rewrite elem_of_app, list_elem_of_singleton.
    intros [?|?]; [done|]. by apply Heq. }
  cbn [mbind result_mbind result_bind]. eapply (res_sat_bind (λ st2,
    norm (board st2) = norm (mark (board st) i j STAR)
    ∧ set_Forall (found_ok g b0) (validWords st2))).
  - destruct (children trie !! upper s) as [child|] eqn:Hchild; [|done].
    assert (walk (wordTrie g) ks' = Some child) as Htrie'.
    { unfold ks'. rewrite walk_app, Htrie. simpl. by rewrite Hchild. }
    apply for_each_sat.
    + intros cell s2 Hadj [Hn2 Hf2].
      eapply res_sat_mono; [apply (Hrec path' ks')| |done].
      * split; try done.
        -- destruct cell. by eapply getAdjCells_in_grid.
        -- intros q. unfold path'. rewrite last_snoc. intros [= <-].
           destruct cell. by eapply getAdjCells_adjacent.
        -- unfold ks'. by rewrite join_snoc.
        -- by eapply board_inv_norm.
      * intros s3 [Hn3 Hf3]. split; [|done]. unfold same_norm in Hn3. congruence.
    + split; [done|]. cbn [validWords]. case_match eqn:Hv; [|done].
      apply andb_true_iff in Hv as [Hvalid Hlen]. apply Nat.leb_le in Hlen.
      apply set_Forall_union; [|done]. apply set_Forall_singleton.
      exists path', ks', child. split_and!; try done.
      unfold ks'. by rewrite join_snoc.
  - intros st2 [H2 Hf2]. rewrite setcell_resolve.
    rewrite (resolve_norm_eq _ _ _ _ H2), resolve_mark, Hres. simpl.
    split; [|done]. unfold same_norm. simpl.
    rewrite norm_mark, H2, norm_mark, mark_mark, upper_idemp.
    apply mark_id. by rewrite cell_at_norm, Hs.
Qed.

Lemma DFS_sound depth : ∀ path ks row col trie w st,
  call_ok g b0 path ks row col trie w st →
  res_sat (return_ok g b0 st) (λ _, True) (DFS g depth row col trie w st).
Proof.
  induction depth as [|d IH]; simpl; apply DFS_body_sound; [done|apply IH].
Qed.

End Soundness.

(** ** The driver and the entry point *)

Section Driver.

Lemma elem_of_range n x : x ∈ Py.range n → (0 ≤ x < Z.of_nat n)%Z.
Proof.
  unfold Py.range. rewrite list_elem_of_fmap. intros (k & -> & Hk).
  apply elem_of_seq in Hk. lia.
Qed.

(** An invariant of the states that every top-level [DFS] call keeps is kept
    by [findValidWords]. *)
Lemma findValidWords_sat (P : State → Prop) E g depth :
  (∀ row col s, in_grid (rowLen g) (colLen g) (row, col) → P s →
     res_sat P E (DFS g depth row col (wordTrie g) "" s)) →
  ∀ st, P st → res_sat P E (findValidWords g depth st).
Proof.
  intros HDFS. unfold findValidWords. apply for_each_sat.
  intros row s Hrow Hs. apply for_each_sat; [|done].
  intros col s' Hcol Hs'. apply HDFS; [|done].
  apply elem_of_range in Hrow, Hcol. by split.
Qed.

(** The two ways through [generateValidWords]. *)
Lemma generateValidWords_at_cases depth b d :
  (generateValidWords_at depth b d = Ok (b, Message invalid_board_size)
   ∧ (length b ≠ validBoardSize
      ∨ ∃ row0, b !! 0 = Some row0 ∧ length row0 ≠ validBoardSize))
  ∨ (∃ row0, length b = validBoardSize ∧ b !! 0 = Some row0
      ∧ length row0 = validBoardSize
      ∧ generateValidWords_at depth b d
        = st ← findValidWords (mkGenerator (Trie d) validBoardSize validBoardSize)
                 depth (mkState b ∅);
          Ok (board st, Words (validWords st))).
Proof.
  unfold generateValidWords_at, new_generator, getValidWords.
  case_bool_decide as Hlen; [left; split; [done|by left]|].
  rewrite getitem_index, index_in_range by (rewrite Hlen; done).
  change (Z.to_nat 0) with 0. destruct (b !! 0) as [row0|] eqn:Hrow0.
  - simpl. case_bool_decide as Hlen0.
    + left. split; [done|]. right. by exists row0.
    + right. exists row0. by rewrite Hlen, Hlen0.
  - apply lookup_ge_None in Hrow0. unfold validBoardSize in *. lia.
Qed.

Lemma getitem_norm b i :
  Py.getitem (norm b) i = result_map norm_row (Py.getitem b i).
Proof.
  rewrite !getitem_index, length_norm. destruct (Py.index _ _) as [n|]; [|done].
  unfold norm. rewrite list_lookup_fmap. by destruct (b !! n).
Qed.

Lemma cell_count_norm b : cell_count (norm b) = cell_count b.
Proof.
  unfold cell_count, norm. induction b as [|r b IH]; [done|].
  simpl. unfold norm_row at 1. rewrite length_fmap. f_equal. exact IH.
Qed.

Lemma findValidWords_commute g depth st :
  findValidWords g depth (norm_state st)
  = result_map norm_state (findValidWords g depth st).
Proof.
  unfold findValidWords. apply for_each_commute. intros row s.
  apply for_each_commute. intros col s'. apply DFS_commute.
Qed.

(** Running on the uppercased board gives the same answer, and the
    uppercased final board. *)
Lemma generateValidWords_at_norm depth b d :
  generateValidWords_at depth (norm b) d
  = result_map (λ ba, (norm ba.1, ba.2)) (generateValidWords_at depth b d).
Proof.
  unfold generateValidWords_at, new_generator, getValidWords.
  rewrite length_norm. case_bool_decide; [done|].
  rewrite getitem_norm. destruct (Py.getitem b 0%Z) as [row0| |]; simpl; [|done..].
  rewrite !length_norm_row.
  case_bool_decide; [done|]. simpl.
  change (mkState (norm b) ∅) with (norm_state (mkState b ∅)).
  rewrite findValidWords_commute.
  by destruct (findValidWords _ _ _).
Qed.

(** The board on return equals the board at the call once both are
    uppercased. *)
Lemma generateValidWords_at_same_norm depth b d b' a :
  generateValidWords_at depth b d = Ok (b', a) → norm b' = norm b.
Proof.
  destruct (generateValidWords_at_cases depth b d) as [[-> _]|(row0 & _ & _ & _ & ->)].
  { by intros [= <- _]. }
  intros H.
  assert (res_sat (λ s, norm (board s) = norm b) (λ _, True)
    (findValidWords (mkGenerator (Trie d) validBoardSize validBoardSize)
       depth (mkState b ∅))) as Hf.
  { apply findValidWords_sat; [|done].
    intros row col s _ Hs. eapply res_sat_mono; [apply DFS_norm| |done].
    unfold same_norm. simpl. congruence. }
  destruct (findValidWords _ depth (mkState b ∅)) as [st| |]; simpl in H; [|done..].
  by injection H as <- _.
Qed.

(** A board without lowercase letters is handed back exactly as it was. *)
Lemma generateValidWords_at_normal depth b d b' a :
  norm b = b → generateValidWords_at depth b d = Ok (b', a) → b' = b.
Proof.
  intros Hn.
  destruct (generateValidWords_at_cases depth b d) as [[-> _]|(row0 & _ & _ & _ & ->)].
  { by intros [= <- _]. }
  intros H.
  assert (res_sat (λ s, board s = b) (λ _, True)
    (findValidWords (mkGenerator (Trie d) validBoardSize validBoardSize)
       depth (mkState b ∅))) as Hf.
  { apply findValidWords_sat; [|done].
    intros row col s _ Hs. eapply res_sat_mono; [apply DFS_normal| |done].
    - by rewrite Hs.
    - simpl. congruence. }
  destruct (findValidWords _ depth (mkState b ∅)) as [st| |]; simpl in H; [|done..].
  by injection H as <- _.
Qed.

(** *** The budget of [generateValidWords] is enough *)

Lemma findValidWords_fuel g depth st :
  unvisited (board st) ≤ depth →
  res_sat (same_norm st) is_Some (findValidWords g depth st).
Proof.
  intros Hd. apply findValidWords_sat; [|done].
  intros row col s _ Hs. eapply res_sat_mono; [apply DFS_fuel| |done].
  - unfold same_norm in Hs. by rewrite <- unvisited_norm, Hs, unvisited_norm.
  - unfold same_norm in *. simpl. congruence.
Qed.

Lemma findValidWords_mono g d d' st :
  d ≤ d' → findValidWords g d st ≠ OutOfFuel →
  findValidWords g d' st = findValidWords g d st.
Proof.
  intros Hd. unfold findValidWords. apply for_each_mono.
  intros row s. apply for_each_mono. intros col s'. by apply DFS_mono.
Qed.

Lemma generateValidWords_at_fuel depth b d :
  cell_count b ≤ depth → generateValidWords_at depth b d ≠ OutOfFuel.
Proof.
  intros Hd.
  destruct (generateValidWords_at_cases depth b d) as [[-> _]|(row0 & _ & _ & _ & ->)]; [done|].
  pose proof (findValidWords_fuel (mkGenerator (Trie d) validBoardSize validBoardSize)
    depth (mkState b ∅)) as Hf.
  destruct (findValidWords _ depth (mkState b ∅)) as [st| |]; [done..|].
  simpl in Hf. destruct Hf as [? [=]].
  pose proof (unvisited_le_cell_count b). lia.
Qed.

(** Any budget of at least the number of cells gives the result of
    [generateValidWords]. *)
Lemma generateValidWords_at_enough depth b d :
  cell_count b ≤ depth → generateValidWords_at depth b d = generateValidWords b d.
Proof.
  intros Hd. unfold generateValidWords.
  pose proof (generateValidWords_at_fuel (cell_count b) b d (le_n _)) as Hne.
  destruct (generateValidWords_at_cases (cell_count b) b d)
    as [[Hc Hbad]|(row0 & Hl & Hr0 & Hl0 & Hc)]; rewrite Hc in *.
  - destruct (generateValidWords_at_cases depth b d)
      as [[Hc' _]|(row0' & Hl' & Hr0' & Hl0' & _)]; [done|].
    destruct Hbad as [?|(r & ? & ?)]; [done|by simplify_eq].
  - destruct (generateValidWords_at_cases depth b d)
      as [[_ Hbad]|(row0' & _ & _ & _ & Hc')].
    { destruct Hbad as [?|(r & ? & ?)]; [done|by simplify_eq]. }
    rewrite Hc'. rewrite (findValidWords_mono _ (cell_count b) depth); [done..|].
    intros Hf. by rewrite Hf in Hne.
Qed.

(** *** On a four-by-four board a set of words is returned *)

Lemma indexable_4x4 t b : is_4x4 b → indexable (mkGenerator t validBoardSize validBoardSize) b.
Proof.
  intros [Hlen Hrows] [row col] [Hr Hc]. simpl in *. unfold resolve.
  rewrite (index_in_range (length b) row) by (by rewrite Hlen). simpl.
  destruct (lookup_lt_is_Some_2 b (Z.to_nat row)) as [r Hrow]; [rewrite Hlen; lia|].
  rewrite Hrow. simpl.
  rewrite (index_in_range (length r) col); [by eexists|].
  rewrite Forall_forall in Hrows. rewrite (Hrows r); [done|].
  by eapply list_elem_of_lookup_2.
Qed.

Lemma findValidWords_noraise g depth st :
  indexable g (board st) →
  res_sat (same_norm st) (λ e, e = None) (findValidWords g depth st).
Proof.
  intros Hb. apply findValidWords_sat; [|done].
  intros row col s Hrc Hs. eapply res_sat_mono; [apply DFS_noraise| |done].
  - done.
  - by eapply indexable_norm.
  - unfold same_norm in *. simpl. congruence.
Qed.

Lemma generateValidWords_total b d :
  is_4x4 b → ∃ b' ws, generateValidWords b d = Ok (b', Words ws).
Proof.
  intros Hb. unfold generateValidWords.
  pose proof (generateValidWords_at_fuel (cell_count b) b d (le_n _)) as Hne.
  destruct (generateValidWords_at_cases (cell_count b) b d)
    as [[_ [Hlen|(row0 & Hrow0 & Hlen)]]|(row0 & _ & _ & _ & Heq)].
  - by destruct Hb.
  - destruct Hb as [_ Hrows]. rewrite Forall_forall in Hrows.
    destruct Hlen. apply Hrows. by eapply list_elem_of_lookup_2.
  - rewrite Heq in *.
    pose proof (findValidWords_noraise (mkGenerator (Trie d) validBoardSize validBoardSize)
      (cell_count b) (mkState b ∅) (indexable_4x4 _ _ Hb)) as Hf.
    destruct (findValidWords _ _ (mkState b ∅)) as [st| |]; simpl in *;
      [by eexists _, _|done..].
Qed.

End Driver.

(** ** The words returned *)

Section Words.

Lemma findValidWords_sound g b0 depth ws :
  set_Forall (found_ok g b0) ws →
  res_sat (λ st, set_Forall (found_ok g b0) (validWords st)) (λ _, True)
    (findValidWords g depth (mkState b0 ws)).
Proof.
  intros Hws.
  eapply res_sat_mono;
    [apply (findValidWords_sat
      (λ s, norm (board s) = norm b0 ∧ set_Forall (found_ok g b0) (validWords s)) (λ _, True))
    |by intros ? [_ ?]|done]; [|done].
  intros row col s Hrc [Hn Hf].
  eapply res_sat_mono; [apply (DFS_sound g b0 depth [] [])| |done].
  - split; try done.
    + split_and!; [apply NoDup_nil_2|done..].
    + eapply board_inv_norm; [exact Hn|].
      intros r c s0 _ _ Hs0 _. split; [apply not_elem_of_nil|by exists s0].
  - intros s' [Hn' Hf']. split; [|done]. unfold same_norm in Hn'. congruence.
Qed.

Lemma getValidWords_found b d g depth st w :
  new_generator b d = Ok g →
  getValidWords g depth (mkState b ∅) = Ok st →
  w ∈ validWords st → found_ok g b w.
Proof.
  intros _ Hrun Hw. unfold getValidWords in Hrun.
  pose proof (findValidWords_sound g b depth ∅ (set_Forall_empty _)) as Hf.
  rewrite Hrun in Hf. by apply Hf.
Qed.

Lemma generateValidWords_at_found depth b d b' ws w :
  generateValidWords_at depth b d = Ok (b', Words ws) → w ∈ ws →
  found_ok (mkGenerator (Trie d) validBoardSize validBoardSize) b w.
Proof.
  destruct (generateValidWords_at_cases depth b d) as [[-> _]|(row0 & _ & _ & _ & ->)]; [done|].
  intros Hrun Hw.
  pose proof (findValidWords_sound (mkGenerator (Trie d) validBoardSize validBoardSize)
    b depth ∅ (set_Forall_empty _)) as Hf.
  destruct (findValidWords _ depth (mkState b ∅)) as [st| |]; simpl in Hrun; [|done..].
  injection Hrun as _ <-. by apply Hf.
Qed.

(** A word found with the trie of a dictionary is the uppercased form of an
    entry, one character per cell of its path. *)
Lemma found_ok_entry g b d w :
  wordTrie g = Trie d → found_ok g b w →
  ∃ u path,
    u ∈ d ∧ minimumValidWordLength ≤ String.length u ∧ w = upper u
    ∧ simple_path (rowLen g) (colLen g) path
    ∧ letters b path = Some (keys w)
    ∧ Forall (λ k, k ≠ STAR) (keys w)
    ∧ (∃ n, walk (Trie d) (keys w) = Some n ∧ valid n = true).
Proof.
  intros Hg (path & ks & n & Hpath & Hlet & Hks & -> & Hwalk & Hvalid & Hlen).
  rewrite Hg in Hwalk.
  destruct (TrieFacts.Trie_valid _ _ _ Hwalk Hvalid) as (u & Hu & Hlenu & ->).
  rewrite join_keys in *. exists u, path. split_and!; try done. by exists n.
Qed.

Lemma simple_path_length rows cols path :
  simple_path rows cols path → length path ≤ rows * cols.
Proof.
  intros (Hnd & Hgrid & _).
  assert (path ⊆+ cprod (seqZ 0 (Z.of_nat rows)) (seqZ 0 (Z.of_nat cols))) as Hsub.
  { apply NoDup_submseteq; [done|]. intros [r c] Hp.
    rewrite Forall_forall in Hgrid. destruct (Hgrid _ Hp) as [Hr Hc]. simpl in *.
    apply list_elem_of_cprod. simpl. rewrite !elem_of_seqZ. lia. }
  apply submseteq_length in Hsub.
  rewrite list_cprod_list_prod, length_prod, !length_seqZ in Hsub. lia.
Qed.

Lemma chars_app s1 s2 : chars (s1 +:+ s2) = chars s1 ++ chars s2.
Proof. induction s1 as [|c s1 IH]; [done|]. simpl. f_equal. exact IH. Qed.

Lemma chars_keys_no_star w :
  Forall (λ k, k ≠ STAR) (keys w) → "*"%char ∉ chars w.
Proof.
  induction w as [|c w IH]; simpl; [intros _; apply not_elem_of_nil|].
  intros [Hc Hw]%Forall_cons. rewrite not_elem_of_cons. split; [|by apply IH].
  intros <-. by apply Hc.
Qed.

(** A cell holding the sentinel puts the sentinel's character into whatever
    is spelled through it. *)
Lemma letters_star b path ks p :
  letters b path = Some ks → p ∈ path → getcell b p.1 p.2 = Ok STAR →
  "*"%char ∈ chars (join ks).
Proof.
  revert ks. induction path as [|q path IH]; intros ks Hlet Hp Hstar.
  { by apply elem_of_nil in Hp. }
  simpl in Hlet. destruct (getcell b q.1 q.2) as [s| |] eqn:Hq; [|done..].
  destruct (letters b path) as [ks'|] eqn:Hks'; [|done].
  simplify_eq. simpl. rewrite chars_app, elem_of_app.
  apply elem_of_cons in Hp as [->|Hp].
  - left. rewrite Hstar in Hq. simplify_eq. by left.
  - right. by apply IH.
Qed.

End Words.

(** ** Examples *)

Example search_sample :
  generateValidWords sample_board ["CAT"; "CATS"; "DOG"; "AT"; "TO"]
  = Ok (sample_board, Words {[ "CAT"; "CATS"; "DOG" ]}).
Proof. vm_compute. reflexivity. Qed.

Example search_empty_dictionary :
  generateValidWords sample_board [] = Ok (sample_board, Words ∅).
Proof. vm_compute. reflexivity. Qed.

Example search_three_by_three :
  generateValidWords [["C";"A";"T"]; ["A";"T";"S"]; ["X";"X";"O"]] ["CAT"]
  = Ok ([["C";"A";"T"]; ["A";"T";"S"]; ["X";"X";"O"]], Message invalid_board_size).
Proof. vm_compute. reflexivity. Qed.

(** The bound on the depth is reached: a word through all sixteen cells is
    found with sixteen nested calls and not with fifteen. *)
Example snake_needs_sixteen :
  generateValidWords_at 15 snake_board ["ABCDEFGHIJKLMNOP"] = OutOfFuel
  ∧ generateValidWords_at 16 snake_board ["ABCDEFGHIJKLMNOP"]
    = Ok (snake_board, Words {[ "ABCDEFGHIJKLMNOP" ]}).
Proof. split; vm_compute; reflexivity. Qed.

(** * The specification, claim by claim *)

(** ** Trie construction *)

(** C2.  The claim: when a dictionary holds a word of at least three letters
    and a strict extension of it, the node at the word's last letter is
    terminal and has a child continuing the longer word, whichever of the
    two comes first.  What [Trie.insert] does: it sets [valid] only on a
    node it has just created, so with the longer word first the node of the
    shorter word's last letter stays non-terminal.  Evaluated on "CAT" and
    "CATS": in the order CAT, CATS the node at T is terminal with a child
    under S; in the order CATS, CAT it has the child but is not terminal,
    and the search no longer finds CAT. *)
Theorem prefix_word_depends_on_order :
  ((λ n, (valid n, bool_decide (is_Some (children n !! "S"))))
     <$> walk (Trie ["CAT"; "CATS"]) (keys "CAT")) = Some (true, true)
  ∧ ((λ n, (valid n, bool_decide (is_Some (children n !! "S"))))
     <$> walk (Trie ["CATS"; "CAT"]) (keys "CAT")) = Some (false, true)
  ∧ generateValidWords sample_board ["CAT"; "CATS"]
    = Ok (sample_board, Words {[ "CAT"; "CATS" ]})
  ∧ generateValidWords sample_board ["CATS"; "CAT"]
    = Ok (sample_board, Words {[ "CATS" ]}).
Proof. split_and!; vm_compute; reflexivity. Qed.

(** C7.  A dictionary entry of fewer than three characters leaves the trie
    untouched: the iteration of [buildRoot] that meets it returns the root it
    was given, so the trie of a dictionary is the trie of the dictionary
    without that entry. *)
Theorem short_entry_skipped w :
  String.length w < minimumValidWordLength →
  (∀ root, buildRoot_step root w = root)
  ∧ (∀ d1 d2, Trie (d1 ++ w :: d2) = Trie (d1 ++ d2)).
Proof.
  intros Hlen.
  assert (∀ root, buildRoot_step root w = root) as Hstep.
  { intros root. unfold buildRoot_step.
    destruct (minimumValidWordLength <=? String.length w)%nat eqn:Hle; [|done].
    apply Nat.leb_le in Hle. lia. }
  split; [done|]. intros d1 d2. unfold Trie.
  rewrite !TrieFacts.buildRoot_app. simpl. by rewrite Hstep.
Qed.

Lemma short_entry_skipped_witness :
  (∀ root, buildRoot_step root "AT" = root)
  ∧ (∀ d1 d2, Trie (d1 ++ "AT" :: d2) = Trie (d1 ++ d2)).
Proof. apply (short_entry_skipped "AT"). vm_compute. lia. Defined.

(** C8.  Listing a word a second time changes nothing: the trie of a
    dictionary in which [w] occurs again later is the trie of the dictionary
    without the later occurrence. *)
Theorem duplicate_entry_idempotent d1 d2 d3 w :
  Trie (d1 ++ w :: d2 ++ w :: d3) = Trie (d1 ++ w :: d2 ++ d3).
Proof.
  unfold Trie. rewrite !TrieFacts.buildRoot_app. simpl.
  rewrite !TrieFacts.buildRoot_app. simpl. f_equal.
  set (r1 := buildRoot d1 new_node).
  unfold buildRoot_step at 1.
  destruct (minimumValidWordLength <=? String.length w)%nat eqn:Hle; [|done].
  apply TrieFacts.insert_present, TrieFacts.buildRoot_mono.
  unfold buildRoot_step. rewrite Hle. apply TrieFacts.walk_insert_self.
Qed.

(** ** The search *)

(** C1.  Every word of the set that [generateValidWords] returns has at
    least three characters; its uppercased form is the uppercased form of a
    dictionary entry, and the trie node reached by spelling it is terminal;
    and a simple path of 8-adjacent cells of the four-by-four grid spells it
    with the uppercased letters of the board as it was at the call. *)
Theorem generateValidWords_sound b d b' ws w :
  generateValidWords b d = Ok (b', Words ws) → w ∈ ws →
  minimumValidWordLength ≤ String.length w
  ∧ upper w ∈ upper <$> d
  ∧ (∃ n, walk (Trie d) (keys (upper w)) = Some n ∧ valid n = true)
  ∧ traceable b w.
Proof.
  intros Hrun Hw.
  pose proof (generateValidWords_at_found _ _ _ _ _ _ Hrun Hw) as Hfound.
  apply (found_ok_entry _ _ d) in Hfound as
    (u & path & Hu & Hlen & -> & Hpath & Hlet & _ & Hnode); [|done].
  rewrite upper_idemp. split_and!.
  - by rewrite length_upper.
  - by apply list_elem_of_fmap_2.
  - done.
  - exists path. split; [done|]. unfold spells. rewrite Hlet. simpl. by rewrite join_keys.
Qed.

Lemma generateValidWords_sound_witness :
  minimumValidWordLength ≤ String.length "CATS"
  ∧ upper "CATS" ∈ upper <$> ["cat"; "Cats"; "dog"]
  ∧ (∃ n, walk (Trie ["cat"; "Cats"; "dog"]) (keys (upper "CATS")) = Some n
          ∧ valid n = true)
  ∧ traceable lowercase_board "CATS".
Proof.
  apply (generateValidWords_sound lowercase_board ["cat"; "Cats"; "dog"]
           sample_board {[ "CAT"; "CATS"; "DOG" ]} "CATS").
  - vm_compute. reflexivity.
  - vm_compute. reflexivity.
Defined.

(** C3.  The claim: when [getValidWords] returns, every cell holds exactly
    what it held at the call.  What [DFS] does: on leaving a cell it stores
    [letter], the uppercased content, not the content it read.  On a board
    with lowercase letters the caller's board comes back changed. *)
Theorem lowercase_board_not_restored :
  generateValidWords lowercase_board ["CAT"] = Ok (sample_board, Words {[ "CAT" ]})
  ∧ sample_board ≠ lowercase_board.
Proof. split; [vm_compute; reflexivity|discriminate]. Qed.

(** C4.  The claim: every board that is not four rows of four cells gets the
    "invalid board size" answer.  What [generateValidWords] does: it compares
    [len(board)] and [len(board[0])] with 4 and looks at no other row.  A
    board whose second row has five cells is searched, and the fifth cell
    ignored; a board whose second row has three cells raises [IndexError]. *)
Theorem ragged_board_not_rejected :
  generateValidWords long_row_board ["CATS"; "TSS"]
  = Ok (long_row_board, Words {[ "CATS" ]})
  ∧ generateValidWords short_row_board ["CATS"] = Raise IndexError.
Proof. split; vm_compute; reflexivity. Qed.

(** C5.  A call of [generateValidWords] on the board as an earlier call with
    the same dictionary left it returns what the earlier call returned. *)
Theorem generateValidWords_deterministic b d b1 a :
  generateValidWords b d = Ok (b1, a) →
  ∃ b2, generateValidWords b1 d = Ok (b2, a).
Proof.
  intros Hrun. unfold generateValidWords in *.
  pose proof (generateValidWords_at_same_norm _ _ _ _ _ Hrun) as Hn.
  assert (cell_count b1 = cell_count b) as ->.
  { by rewrite <- (cell_count_norm b1), Hn, cell_count_norm. }
  pose proof (generateValidWords_at_norm (cell_count b) b d) as H0.
  pose proof (generateValidWords_at_norm (cell_count b) b1 d) as H1.
  rewrite Hn, H0, Hrun in H1. simpl in H1.
  destruct (generateValidWords_at (cell_count b) b1 d) as [[b2 a2]| |]; [|done..].
  exists b2. simpl in H1. congruence.
Qed.

Lemma generateValidWords_deterministic_witness :
  ∃ b2, generateValidWords sample_board ["cat"; "dog"]
        = Ok (b2, Words {[ "CAT"; "DOG" ]}).
Proof.
  apply (generateValidWords_deterministic lowercase_board ["cat"; "dog"]).
  vm_compute. reflexivity.
Defined.

(** C6.  [DFS] terminates, whatever the board, the trie node, the cell and
    the accumulated string, and its recursive calls nest no deeper than the
    board has cells: with a budget [depth] of nested calls below the first
    one that is at least the number of cells, the call returns or raises, and
    a larger budget gives the same outcome.  On a four-by-four board sixteen
    nested calls suffice. *)
Theorem DFS_terminates g row col trie w st :
  (∀ depth, cell_count (board st) ≤ depth →
     DFS g depth row col trie w st ≠ OutOfFuel
     ∧ ∀ depth', depth ≤ depth' →
         DFS g depth' row col trie w st = DFS g depth row col trie w st)
  ∧ (is_4x4 (board st) → DFS g 16 row col trie w st ≠ OutOfFuel).
Proof.
  assert (∀ depth, cell_count (board st) ≤ depth →
    DFS g depth row col trie w st ≠ OutOfFuel) as Hfuel.
  { intros depth Hd Hout.
    pose proof (DFS_fuel g depth row col trie w st) as Hf.
    rewrite Hout in Hf. simpl in Hf. destruct Hf as [? [=]].
    pose proof (unvisited_le_cell_count (board st)). lia. }
  split.
  - intros depth Hd. split; [by apply Hfuel|].
    intros depth' Hd'. apply DFS_mono; [done|by apply Hfuel].
  - intros [Hlen Hrows]. apply Hfuel.
    unfold cell_count. rewrite (sum_list_fmap_same validBoardSize).
    + rewrite Hlen. done.
    + done.
Qed.

Lemma DFS_terminates_witness :
  (DFS (mkGenerator (Trie ["ABCDEFGHIJKLMNOP"]) 4 4) 16 0 0
       (Trie ["ABCDEFGHIJKLMNOP"]) "" (mkState snake_board ∅) ≠ OutOfFuel
   ∧ DFS (mkGenerator (Trie ["ABCDEFGHIJKLMNOP"]) 4 4) 20 0 0
       (Trie ["ABCDEFGHIJKLMNOP"]) "" (mkState snake_board ∅)
     = DFS (mkGenerator (Trie ["ABCDEFGHIJKLMNOP"]) 4 4) 16 0 0
       (Trie ["ABCDEFGHIJKLMNOP"]) "" (mkState snake_board ∅))
  ∧ DFS (mkGenerator (Trie ["ABCDEFGHIJKLMNOP"]) 4 4) 16 3 3
       (Trie ["ABCDEFGHIJKLMNOP"]) "" (mkState snake_board ∅) ≠ OutOfFuel.
Proof.
  split.
  - destruct (DFS_terminates (mkGenerator (Trie ["ABCDEFGHIJKLMNOP"]) 4 4) 0 0
      (Trie ["ABCDEFGHIJKLMNOP"]) "" (mkState snake_board ∅)) as [Hany _].
    destruct (Hany 16) as [Hfuel Hmore]; [vm_compute; lia|].
    split; [exact Hfuel|]. apply Hmore. lia.
  - destruct (DFS_terminates (mkGenerator (Trie ["ABCDEFGHIJKLMNOP"]) 4 4) 3 3
      (Trie ["ABCDEFGHIJKLMNOP"]) "" (mkState snake_board ∅)) as [_ H4x4].
    apply H4x4. split; [reflexivity|]. repeat constructor.
Defined.

(** C9.  No word returned by [getValidWords] is longer than the grid has
    cells, sixteen on a four-by-four board: the word has one character for
    each cell of a path that repeats no cell. *)
Theorem getValidWords_length_bound b d g depth st w :
  new_generator b d = Ok g →
  getValidWords g depth (mkState b ∅) = Ok st →
  w ∈ validWords st →
  String.length w ≤ rowLen g * colLen g
  ∧ (is_4x4 b → String.length w ≤ 16).
Proof.
  intros Hg Hrun Hw.
  pose proof (getValidWords_found _ _ _ _ _ _ Hg Hrun Hw) as Hfound.
  unfold new_generator in Hg. rewrite getitem_index in Hg.
  destruct (Py.index (length b) 0) as [i|] eqn:Hi; [|done].
  apply index_nonneg in Hi as ->; [|done]. change (Z.to_nat 0) with 0 in Hg.
  destruct (b !! 0) as [row0|] eqn:Hrow0; [|done].
  simpl in Hg. injection Hg as <-.
  apply (found_ok_entry _ _ d) in Hfound as
    (u & path & _ & _ & _ & Hpath & Hlet & _ & _); [|done].
  apply simple_path_length in Hpath. apply letters_length in Hlet.
  rewrite length_keys in Hlet. simpl in *.
  split; [lia|]. intros [Hlen Hrows].
  rewrite Forall_forall in Hrows. rewrite (Hrows row0), Hlen in Hpath.
  - unfold validBoardSize in Hpath. lia.
  - by eapply list_elem_of_lookup_2.
Qed.

Lemma getValidWords_length_bound_witness :
  String.length "ABCDEFGHIJKLMNOP" ≤ 4 * 4
  ∧ (is_4x4 snake_board → String.length "ABCDEFGHIJKLMNOP" ≤ 16).
Proof.
  apply (getValidWords_length_bound snake_board ["ABCDEFGHIJKLMNOP"]
           (mkGenerator (Trie ["ABCDEFGHIJKLMNOP"]) 4 4) 16
           (mkState snake_board {[ "ABCDEFGHIJKLMNOP" ]}) "ABCDEFGHIJKLMNOP").
  - vm_compute. reflexivity.
  - vm_compute. reflexivity.
  - vm_compute. reflexivity.
Defined.

(** C10.  A cell that holds '*' when the search is called counts as in use
    for good: [DFS] entered at such a cell returns at once with the state
    unchanged, whatever the trie node; and no path that spells a returned
    word on the board goes through such a cell. *)
Theorem sentinel_cell_never_used :
  (∀ g depth row col trie w st,
     getcell (board st) row col = Ok STAR →
     DFS g depth row col trie w st = Ok st)
  ∧ (∀ b d b' ws w path p,
       generateValidWords b d = Ok (b', Words ws) → w ∈ ws →
       spells b path w → p ∈ path →
       getcell b p.1 p.2 ≠ Ok STAR).
Proof.
  split.
  - intros g depth row col trie w st Hstar.
    destruct depth; simpl; unfold DFS_body; by rewrite Hstar.
  - intros b d b' ws w path p Hrun Hw Hspell Hp Hstar.
    pose proof (generateValidWords_at_found _ _ _ _ _ _ Hrun Hw) as Hfound.
    apply (found_ok_entry _ _ d) in Hfound as
      (u & path0 & _ & _ & _ & _ & _ & Hkeys & _); [|done].
    apply chars_keys_no_star in Hkeys. apply Hkeys.
    unfold spells in Hspell.
    destruct (letters b path) as [ks|] eqn:Hlet; [|done].
    simpl in Hspell. injection Hspell as <-.
    by eapply letters_star.
Qed.

Lemma sentinel_cell_never_used_witness :
  DFS (mkGenerator (Trie ["CATS"]) 4 4) 16 0 2 (Trie ["CATS"]) "" (mkState star_board ∅)
  = Ok (mkState star_board ∅)
  ∧ getcell sample_board 0 2 ≠ Ok STAR.
Proof.
  split.
  - apply (proj1 sentinel_cell_never_used). vm_compute. reflexivity.
  - apply (proj2 sentinel_cell_never_used sample_board ["CAT"; "CATS"] sample_board
             {[ "CAT"; "CATS" ]} "CAT" [(0, 0); (0, 1); (0, 2)]%Z (0, 2)%Z).
    + vm_compute. reflexivity.
    + vm_compute. reflexivity.
    + vm_compute. reflexivity.
    + set_solver.
Defined.

(** * Further properties of the code *)

(** ** The trie built from a dictionary *)

Section TrieMore.

(** A word whose path is not yet complete in [t] ends, once inserted, at a
    terminal node. *)
Lemma walk_insert_fresh w : ∀ t,
  w ≠ "" → walk t (keys w) = None →
  ∃ n, walk (insert w t) (keys w) = Some n ∧ valid n = true.
Proof.
  induction w as [|c w IH]; intros t Hne Hnone; [done|].
  simpl in *. rewrite lookup_insert_eq.
  destruct (children t !! String c "") as [ch|] eqn:Hch.
  - destruct w as [|c' w]; [done|]. by apply IH.
  - destruct w as [|c' w].
    + simpl. eexists. split; [done|]. done.
    + apply IH; [done|]. simpl. by rewrite lookup_empty.
Qed.

(** Insertion never takes a terminal mark away. *)
Lemma walk_insert_keeps_valid u : ∀ t ks n,
  walk t ks = Some n → valid n = true →
  ∃ n', walk (insert u t) ks = Some n' ∧ valid n' = true.
Proof.
  induction u as [|c u IH]; intros t ks n Hw Hv; [eauto|].
  destruct ks as [|k ks].
  { simpl in Hw. simplify_eq. eexists. split; [done|]. done. }
  simpl in *. destruct (children t !! k) as [ch|] eqn:Hch; [|done].
  destruct (decide (String c "" = k)) as [->|Hne].
  - rewrite lookup_insert_eq, Hch. by eapply IH.
  - rewrite lookup_insert_ne, Hch by done. eauto.
Qed.

Lemma buildRoot_keeps_valid d : ∀ r ks n,
  walk r ks = Some n → valid n = true →
  ∃ n', walk (buildRoot d r) ks = Some n' ∧ valid n' = true.
Proof.
  induction d as [|w d IH]; intros r ks n Hw Hv; [eauto|].
  simpl. unfold buildRoot_step. case_match; [|by eapply IH].
  destruct (walk_insert_keeps_valid (upper w) _ _ _ Hw Hv) as (n' & Hw' & Hv').
  by eapply IH.
Qed.

(** A path of [insert u t] runs along [u] or was a path of [t]. *)
Lemma walk_insert_prefix u : ∀ t ks,
  is_Some (walk (insert u t) ks) → ks `prefix_of` keys u ∨ is_Some (walk t ks).
Proof.
  induction u as [|c u IH]; intros t ks Hw; [by right|].
  destruct ks as [|k ks]; [left; apply prefix_nil|].
  simpl in Hw. destruct (decide (String c "" = k)) as [<-|Hne].
  - rewrite lookup_insert_eq in Hw.
    destruct (IH _ _ Hw) as [Hpre|Hold]; [left; by apply prefix_cons|].
    destruct (children t !! String c "") as [ch|] eqn:Hch.
    + right. simpl. by rewrite Hch.
    + left. destruct ks as [|k' ks]; simpl in Hold.
      * apply prefix_cons, prefix_nil.
      * rewrite lookup_empty in Hold. by destruct Hold.
  - rewrite lookup_insert_ne in Hw by done. by right.
Qed.

Lemma buildRoot_prefix d : ∀ r ks,
  is_Some (walk (buildRoot d r) ks) →
  (∃ u, u ∈ d ∧ minimumValidWordLength ≤ String.length u
        ∧ ks `prefix_of` keys (upper u))
  ∨ is_Some (walk r ks).
Proof.
  induction d as [|w d IH]; intros r ks Hw; [by right|].
  simpl in Hw. destruct (IH _ _ Hw) as [(u & Hu & Hlen & Hpre)|Hold].
  { left. exists u. split_and!; [by right|done..]. }
  unfold buildRoot_step in Hold.
  destruct (minimumValidWordLength <=? String.length w)%nat eqn:Hlen; [|by right].
  apply Nat.leb_le in Hlen.
  destruct (walk_insert_prefix _ _ _ Hold) as [Hpre|?]; [|by right].
  left. exists w. split_and!; [by left|done..].
Qed.

Lemma upper_nonempty w : minimumValidWordLength ≤ String.length w → upper w ≠ "".
Proof. destruct w; [simpl; unfold minimumValidWordLength; lia|done]. Qed.

Lemma Trie_fresh_entry d1 u d2 :
  minimumValidWordLength ≤ String.length u →
  walk (Trie d1) (keys (upper u)) = None →
  ∃ n, walk (Trie (d1 ++ u :: d2)) (keys (upper u)) = Some n ∧ valid n = true.
Proof.
  intros Hlen Hnone. unfold Trie in *. rewrite TrieFacts.buildRoot_app. simpl.
  unfold buildRoot_step at 1. pose proof Hlen as Hlen'.
  apply Nat.leb_le in Hlen'. rewrite Hlen'.
  destruct (walk_insert_fresh (upper u) (buildRoot d1 new_node))
    as (n & Hw & Hv); [by apply upper_nonempty|done|].
  by eapply buildRoot_keeps_valid.
Qed.

End TrieMore.

(** X1.  Every dictionary entry of at least three characters can be spelled
    down the trie: the path of its uppercased form exists. *)
Theorem Trie_entry_path d u :
  u ∈ d → minimumValidWordLength ≤ String.length u →
  is_Some (walk (Trie d) (keys (upper u))).
Proof.
  intros Hu Hlen. apply list_elem_of_split in Hu as (d1 & d2 & ->).
  unfold Trie. rewrite TrieFacts.buildRoot_app. simpl.
  apply TrieFacts.buildRoot_mono. unfold buildRoot_step.
  apply Nat.leb_le in Hlen. rewrite Hlen. apply TrieFacts.walk_insert_self.
Qed.

Lemma Trie_entry_path_witness :
  is_Some (walk (Trie ["at"; "cats"; "dog"]) (keys (upper "cats"))).
Proof.
  apply (Trie_entry_path ["at"; "cats"; "dog"] "cats"); [set_solver|].
  vm_compute. lia.
Defined.

(** X2.  An entry of at least three characters whose path is not complete in
    the trie of the entries before it ends at a terminal node of the trie of
    the whole dictionary. *)
Theorem Trie_entry_terminal d1 u d2 :
  minimumValidWordLength ≤ String.length u →
  walk (Trie d1) (keys (upper u)) = None →
  ∃ n, walk (Trie (d1 ++ u :: d2)) (keys (upper u)) = Some n ∧ valid n = true.
Proof. apply Trie_fresh_entry. Qed.

Lemma Trie_entry_terminal_witness :
  ∃ n, walk (Trie (["cat"] ++ "cats" :: ["dog"])) (keys (upper "cats")) = Some n
       ∧ valid n = true.
Proof.
  apply (Trie_entry_terminal ["cat"] "cats" ["dog"]).
  - vm_compute. lia.
  - vm_compute. reflexivity.
Defined.

(** X3.  An entry whose path is already complete in the trie of the entries
    before it adds nothing: the trie is the one built without that entry.  (A
    word listed after one of its extensions is such an entry.) *)
Theorem Trie_entry_on_existing_path d1 u d2 :
  is_Some (walk (Trie d1) (keys (upper u))) →
  Trie (d1 ++ u :: d2) = Trie (d1 ++ d2).
Proof.
  intros Hpath. unfold Trie in *. rewrite !TrieFacts.buildRoot_app. simpl.
  f_equal. unfold buildRoot_step. case_match; [|done].
  by apply TrieFacts.insert_present.
Qed.

Lemma Trie_entry_on_existing_path_witness :
  Trie (["CATS"] ++ "CAT" :: ["DOG"]) = Trie (["CATS"] ++ ["DOG"]).
Proof.
  apply (Trie_entry_on_existing_path ["CATS"] "CAT" ["DOG"]).
  vm_compute. by eexists.
Defined.

(** X4.  A terminal node of the trie always ends the uppercased form of a
    dictionary entry of at least three characters. *)
Theorem Trie_terminal_is_entry d ks n :
  walk (Trie d) ks = Some n → valid n = true →
  ∃ u, u ∈ d ∧ minimumValidWordLength ≤ String.length u ∧ ks = keys (upper u).
Proof. apply TrieFacts.Trie_valid. Qed.

Lemma Trie_terminal_is_entry_witness :
  ∃ u, u ∈ ["cat"; "dog"] ∧ minimumValidWordLength ≤ String.length u
       ∧ ["D"; "O"; "G"] = keys (upper u).
Proof.
  destruct (walk (Trie ["cat"; "dog"]) ["D"; "O"; "G"]) as [n|] eqn:Hn;
    [|by vm_compute in Hn].
  apply (Trie_terminal_is_entry ["cat"; "dog"] ["D"; "O"; "G"] n Hn).
  vm_compute in Hn. by injection Hn as <-.
Defined.

(** X5.  The trie holds nothing but the entries: every path from the root
    spells a prefix of the uppercased form of an entry of at least three
    characters. *)
Theorem Trie_path_is_prefix d ks :
  is_Some (walk (Trie d) ks) →
  ks = [] ∨ ∃ u, u ∈ d ∧ minimumValidWordLength ≤ String.length u
                 ∧ ks `prefix_of` keys (upper u).
Proof.
  intros Hw. destruct (buildRoot_prefix _ _ _ Hw) as [?|Hroot]; [by right|].
  destruct ks as [|k ks]; [by left|].
  simpl in Hroot. rewrite lookup_empty in Hroot. by destruct Hroot.
Qed.

Lemma Trie_path_is_prefix_witness :
  ["C"; "A"] = [] ∨ ∃ u, u ∈ ["cat"; "dog"] ∧ minimumValidWordLength ≤ String.length u
                          ∧ ["C"; "A"] `prefix_of` keys (upper u).
Proof.
  apply (Trie_path_is_prefix ["cat"; "dog"] ["C"; "A"]). vm_compute. by eexists.
Defined.

(** X6.  The root of the trie is never terminal. *)
Theorem Trie_root_not_terminal d : valid (Trie d) = false.
Proof.
  assert (∀ r, valid r = false → valid (buildRoot d r) = false) as Hroot.
  { induction d as [|w d IH]; intros r Hr; [done|].
    simpl. apply IH. unfold buildRoot_step. case_match; [|done].
    by rewrite TrieFacts.valid_insert. }
  by apply Hroot.
Qed.

(** ** The neighbours of a cell *)

Lemma adjacent_in_getAdjCells g x y cell :
  in_grid (rowLen g) (colLen g) cell → adjacent (x, y) cell →
  cell ∈ getAdjCells g x y.
Proof.
  destruct cell as [r c]. intros Hgrid (Hne & Hr & Hc). simpl in *.
  unfold getAdjCells. apply list_elem_of_filter. split; [done|].
  apply list_elem_of_fmap. exists ((r - x)%Z, (c - y)%Z). split.
  { simpl. f_equal; lia. }
  assert (r - x = -1 ∨ r - x = 0 ∨ r - x = 1)%Z as Hdx by lia.
  assert (c - y = -1 ∨ c - y = 0 ∨ c - y = 1)%Z as Hdy by lia.
  unfold directions.
  destruct Hdx as [->|[Hdx| ->]], Hdy as [->|[Hdy| ->]];
    try rewrite Hdx; try rewrite Hdy; try set_solver.
  destruct Hne. f_equal; lia.
Qed.

(** X7.  [getAdjCells(x, y)] yields exactly the cells of the grid that are
    8-adjacent to [(x, y)]. *)
Theorem getAdjCells_spec g x y cell :
  cell ∈ getAdjCells g x y
  ↔ in_grid (rowLen g) (colLen g) cell ∧ adjacent (x, y) cell.
Proof.
  split.
  - intros H. split; [by eapply getAdjCells_in_grid|by eapply getAdjCells_adjacent].
  - intros [? ?]. by apply adjacent_in_getAdjCells.
Qed.

(** X8.  [getAdjCells] yields no cell twice, and at most eight cells. *)
Theorem getAdjCells_NoDup g x y :
  NoDup (getAdjCells g x y) ∧ length (getAdjCells g x y) ≤ 8.
Proof.
  unfold getAdjCells. split.
  - apply NoDup_filter, NoDup_fmap_2_strong.
    + intros [dx dy] [dx' dy'] _ _ [= ? ?]. f_equal; lia.
    + unfold directions.
      repeat (apply NoDup_cons_2;
        [rewrite ?not_elem_of_cons; repeat split; (done || apply not_elem_of_nil)|]).
      apply NoDup_nil_2.
  - etrans; [apply length_filter|]. by rewrite length_fmap.
Qed.

(** ** What the search adds to [validWords] *)

Section Completeness.

Context (g : ValidWordsGenerator).

Lemma DFS_body_grows self_DFS :
  (∀ r c t w s, res_sat (λ s', validWords s ⊆ validWords s') (λ _, True)
                  (self_DFS r c t w s)) →
  ∀ row col trie w st,
    res_sat (λ s', validWords st ⊆ validWords s') (λ _, True)
      (DFS_body g self_DFS row col trie w st).
Proof.
  intros Hrec row col trie w st. unfold DFS_body.
  destruct (getcell (board st) row col) as [s| |]; [|done..].
  cbn [mbind result_mbind result_bind]. case_bool_decide; [by simpl|].
  destruct (setcell (board st) row col STAR) as [b1| |]; [|done..].
  cbn [mbind result_mbind result_bind].
  eapply (res_sat_bind (λ st2, validWords st ⊆ validWords st2)).
  - destruct (children trie !! upper s) as [child|]; [|by simpl].
    apply for_each_sat.
    + intros cell s2 _ Hs2. eapply res_sat_mono; [apply Hrec| |done].
      intros s3 Hs3. simpl in Hs3. by etrans.
    + cbn [validWords]. case_match; [apply union_subseteq_r|done].
  - intros st2 Hst2. by destruct (setcell (board st2) row col (upper s)).
Qed.

(** The search only ever adds to the set of words. *)
Lemma DFS_grows depth : ∀ row col trie w st,
  res_sat (λ s', validWords st ⊆ validWords s') (λ _, True)
    (DFS g depth row col trie w st).
Proof.
  induction depth as [|d IH]; simpl; apply DFS_body_grows; [done|apply IH].
Qed.

Lemma for_each_elem {A S : Type} (P Q : S → Prop) (xs : list A)
    (body : A → S → Result S) x :
  x ∈ xs →
  (∀ y s s', body y s = Ok s' → P s → P s') →
  (∀ s s', body x s = Ok s' → P s → Q s') →
  (∀ y s s', body y s = Ok s' → Q s → Q s') →
  ∀ st st', Py.for_each xs body st = Ok st' → P st → Q st'.
Proof.
  intros Hx HP HPQ HQ.
  assert (∀ ys st st', Py.for_each ys body st = Ok st' → Q st → Q st') as Hkeep.
  { induction ys as [|y ys IH]; intros st st' Hrun Hst; simpl in Hrun.
    - by simplify_eq.
    - destruct (body y st) as [s1| |] eqn:Hy; simpl in Hrun; [|done..].
      eapply IH; [done|]. by eapply HQ. }
  induction xs as [|y xs IH]; intros st st' Hrun Hst; [by apply elem_of_nil in Hx|].
  simpl in Hrun. destruct (body y st) as [s1| |] eqn:Hy; simpl in Hrun; [|done..].
  apply elem_of_cons in Hx as [->|Hx].
  - eapply Hkeep; [done|]. by eapply HPQ.
  - eapply IH; [done..|]. by eapply HP.
Qed.

Lemma letters_norm_eq b b' path :
  norm b' = norm b → letters b' path = letters b path.
Proof.
  intros Hn. induction path as [|p path IH]; [done|].
  simpl. rewrite IH.
  pose proof (getcell_norm b' p.1 p.2) as H'. rewrite Hn, getcell_norm in H'.
  destruct (getcell b p.1 p.2) as [s| |], (getcell b' p.1 p.2) as [s'| |];
    simpl in H'; try done.
  injection H' as ->. done.
Qed.

Lemma letters_mark b row col i j v path :
  (0 ≤ row)%Z → (0 ≤ col)%Z → resolve b row col = Some (i, j) →
  Forall (λ p, (0 ≤ p.1)%Z ∧ (0 ≤ p.2)%Z) path → (row, col) ∉ path →
  letters (mark b i j v) path = letters b path.
Proof.
  intros Hr Hc Hres Hpos Hnot. induction Hpos as [|[r c] path [Hpr Hpc] Hpos IH]; [done|].
  apply not_elem_of_cons in Hnot as [Hne Hnot]. simpl in *.
  rewrite (getcell_mark _ row col) by done.
  rewrite decide_False by done. by rewrite IH.
Qed.

Lemma in_grid_nonneg rows cols path :
  Forall (in_grid rows cols) path → Forall (λ p, (0 ≤ p.1)%Z ∧ (0 ≤ p.2)%Z) path.
Proof. intros H. eapply Forall_impl; [exact H|]. intros p [? ?]. lia. Qed.

Lemma DFS_body_complete self_DFS :
  (∀ r c t w s, res_sat (same_norm s) (λ _, True) (self_DFS r c t w s)) →
  (∀ r c t w s, res_sat (λ s', validWords s ⊆ validWords s') (λ _, True)
                  (self_DFS r c t w s)) →
  (∀ path ks r c t w s s', self_DFS r c t w s = Ok s' →
     reachable_word g ((r, c) :: path) ks t w (board s) →
     w +:+ join ks ∈ validWords s') →
  ∀ path ks row col trie w st st',
    DFS_body g self_DFS row col trie w st = Ok st' →
    reachable_word g ((row, col) :: path) ks trie w (board st) →
    w +:+ join ks ∈ validWords st'.
Proof.
  intros Hnorm Hgrow Hrec path ks row col trie w st st' Hrun
    ((Hnd & Hgrid & Hchain) & Hlet & Hks & (n & Hwalk & Hvalid) & Hlen).
  simpl in Hlet.
  destruct (getcell (board st) row col) as [s| |] eqn:Hget; [|done..].
  destruct (letters (board st) path) as [ks'|] eqn:Hlet'; [|done].
  injection Hlet as <-.
  apply Forall_cons in Hks as [Hk Hks']. rewrite upper_star in Hk.
  simpl in Hwalk. destruct (children trie !! upper s) as [child|] eqn:Hchild; [|done].
  apply Forall_cons in Hgrid as [[Hrow Hcol] Hgrid]. simpl in Hrow, Hcol.
  apply NoDup_cons in Hnd as [Hfresh Hnd].
  unfold DFS_body in Hrun. rewrite Hget in Hrun.
  cbn [mbind result_mbind result_bind] in Hrun.
  rewrite bool_decide_eq_false_2 in Hrun by done.
  rewrite getcell_resolve in Hget. rewrite (setcell_resolve _ _ _ STAR) in Hrun.
  destruct (resolve (board st) row col) as [[i j]|] eqn:Hres; [|done].
  cbn [mbind result_mbind result_bind] in Hrun. rewrite Hchild in Hrun.
  match type of Hrun with
  | context [Py.for_each ?xs ?body ?s0] =>
      destruct (Py.for_each xs body s0) as [st2| |] eqn:Hloop
  end; cbn [mbind result_mbind result_bind] in Hrun; [|done..].
  destruct (setcell (board st2) row col (upper s)) as [b3| |]; [|done..].
  cbn [mbind result_mbind result_bind] in Hrun. injection Hrun as <-.
  cbn [validWords]. cbn [join] in Hlen |- *.
  destruct path as [|[r c] path].
  - (* the word ends at this cell *)
    simpl in Hlet'. injection Hlet' as <-. simpl in Hwalk. injection Hwalk as ->.
    cbn [join] in Hlen |- *. rewrite string_app_nil_r in Hlen |- *.
    assert (res_sat (λ s2, w +:+ upper s ∈ validWords s2) (λ _, True)
      (Py.for_each (getAdjCells g row col)
         (λ cell, self_DFS cell.1 cell.2 n (w +:+ upper s))
         (mkState (mark (board st) i j STAR)
            (if valid n && (minimumValidWordLength <=? String.length (w +:+ upper s))%nat
             then {[ w +:+ upper s ]} ∪ validWords st else validWords st)))) as Hin.
    { apply for_each_sat.
      - intros cell s2 _ Hs2. eapply res_sat_mono; [apply Hgrow| |done].
        intros s3 Hs3. simpl in Hs3. by apply Hs3.
      - cbn [validWords]. rewrite Hvalid. apply Nat.leb_le in Hlen. rewrite Hlen.
        simpl. apply elem_of_union_l. by apply elem_of_singleton. }
    rewrite Hloop in Hin. exact Hin.
  - (* the word goes on to the neighbour [(r, c)] *)
    destruct Hchain as [Hadj Hchain].
    apply Forall_cons in Hgrid as Hgrid'. destruct Hgrid' as [Hrc _].
    refine (for_each_elem
      (λ s2, norm (board s2) = norm (mark (board st) i j STAR))
      (λ s2, w +:+ (upper s +:+ join ks') ∈ validWords s2)
      _ _ (r, c) _ _ _ _ _ _ Hloop eq_refl).
    + by apply adjacent_in_getAdjCells.
    + intros y s1 s1' Hy Hs1. pose proof (Hnorm y.1 y.2 child (w +:+ upper s) s1) as Hn.
      rewrite Hy in Hn. unfold same_norm in Hn. simpl in Hn. congruence.
    + intros s1 s1' Hy Hs1. simpl in Hy.
      rewrite <- string_app_assoc.
      apply (Hrec path ks' r c child (w +:+ upper s) s1 s1' Hy).
      split_and!; try done.
      * rewrite (letters_norm_eq _ _ _ Hs1).
        rewrite (letters_mark _ row col); try done; try lia.
        by eapply in_grid_nonneg.
      * by exists n.
      * by rewrite string_app_assoc.
    + intros y s1 s1' Hy Hs1. pose proof (Hgrow y.1 y.2 child (w +:+ upper s) s1) as Hg.
      rewrite Hy in Hg. simpl in Hg. by apply Hg.
Qed.

(** Called at the first cell of a path that spells a word of the trie on the
    current board, [DFS] puts the word into [validWords]. *)
Lemma DFS_complete depth : ∀ path ks row col trie w st st',
  DFS g depth row col trie w st = Ok st' →
  reachable_word g ((row, col) :: path) ks trie w (board st) →
  w +:+ join ks ∈ validWords st'.
Proof.
  induction depth as [|d IH]; simpl; apply DFS_body_complete; try done.
  - apply DFS_norm.
  - apply DFS_grows.
Qed.

Lemma DFS_norm_Ok depth row col trie w st st' :
  DFS g depth row col trie w st = Ok st' → norm (board st') = norm (board st).
Proof.
  intros Hrun. pose proof (DFS_norm g depth row col trie w st) as H.
  by rewrite Hrun in H.
Qed.

Lemma DFS_grows_Ok depth row col trie w st st' :
  DFS g depth row col trie w st = Ok st' → validWords st ⊆ validWords st'.
Proof.
  intros Hrun. pose proof (DFS_grows depth row col trie w st) as H.
  by rewrite Hrun in H.
Qed.

Lemma range_elem n x : (0 ≤ x < Z.of_nat n)%Z → x ∈ Py.range n.
Proof.
  intros Hx. unfold Py.range. apply list_elem_of_fmap.
  exists (Z.to_nat x). split; [lia|]. apply elem_of_seq. lia.
Qed.

Lemma for_each_keeps {A S : Type} (P : S → Prop) (xs : list A)
    (body : A → S → Result S) :
  (∀ y s s', body y s = Ok s' → P s → P s') →
  ∀ st st', Py.for_each xs body st = Ok st' → P st → P st'.
Proof.
  intros HP. induction xs as [|y xs IH]; intros st st' Hrun Hst; simpl in Hrun.
  - by simplify_eq.
  - destruct (body y st) as [s1| |] eqn:Hy; simpl in Hrun; [|done..].
    eapply IH; [done|]. by eapply HP.
Qed.

Lemma findValidWords_grows depth st st' :
  findValidWords g depth st = Ok st' → validWords st ⊆ validWords st'.
Proof.
  intros Hrun.
  refine (for_each_keeps (λ s, validWords st ⊆ validWords s) _ _ _ _ _ Hrun _); [|done].
  intros row s s' Hrow Hs.
  refine (for_each_keeps (λ s, validWords st ⊆ validWords s) _ _ _ _ _ Hrow Hs).
  intros col s1 s1' Hcol Hs1. etrans; [done|]. by eapply DFS_grows_Ok.
Qed.

(** [findValidWords] finds every word that some simple path spells on the
    board from the root of the trie. *)
Lemma findValidWords_complete depth st st' path ks :
  findValidWords g depth st = Ok st' → path ≠ [] →
  reachable_word g path ks (wordTrie g) "" (board st) →
  join ks ∈ validWords st'.
Proof.
  intros Hrun Hne Hreach. destruct path as [|[r0 c0] path]; [done|].
  pose proof Hreach as ((_ & [[Hr0 Hc0] _]%Forall_cons & _) & _). simpl in Hr0, Hc0.
  assert (∀ row s s',
    Py.for_each (Py.range (colLen g))
      (λ col, DFS g depth row col (wordTrie g) "") s = Ok s' →
    norm (board s) = norm (board st) → norm (board s') = norm (board st)) as Hrow_norm.
  { intros row s s' Hrow Hs.
    refine (for_each_keeps (λ s, norm (board s) = norm (board st)) _ _ _ _ _ Hrow Hs).
    intros col s1 s1' Hcol Hs1. by rewrite (DFS_norm_Ok _ _ _ _ _ _ _ Hcol). }
  assert (∀ row s s',
    Py.for_each (Py.range (colLen g))
      (λ col, DFS g depth row col (wordTrie g) "") s = Ok s' →
    join ks ∈ validWords s → join ks ∈ validWords s') as Hrow_grows.
  { intros row s s' Hrow Hs.
    refine (for_each_keeps (λ s, join ks ∈ validWords s) _ _ _ _ _ Hrow Hs).
    intros col s1 s1' Hcol Hs1. by apply (DFS_grows_Ok _ _ _ _ _ _ _ Hcol). }
  refine (for_each_elem (λ s, norm (board s) = norm (board st))
    (λ s, join ks ∈ validWords s) _ _ r0 _ _ _ _ _ _ Hrun eq_refl).
  - by apply range_elem.
  - apply Hrow_norm.
  - intros s s' Hrow Hs.
    refine (for_each_elem (λ s, norm (board s) = norm (board st))
      (λ s, join ks ∈ validWords s) _ _ c0 _ _ _ _ _ _ Hrow Hs).
    + by apply range_elem.
    + intros col s1 s1' Hcol Hs1. by rewrite (DFS_norm_Ok _ _ _ _ _ _ _ Hcol).
    + intros s1 s1' Hcol Hs1.
      change (join ks) with ("" +:+ join ks).
      apply (DFS_complete depth path ks r0 c0 (wordTrie g) "" s1 s1' Hcol).
      destruct Hreach as (Hpath & Hlet & Hrest).
      split; [done|]. split; [|done]. by rewrite (letters_norm_eq _ _ _ Hs1).
    + intros col s1 s1' Hcol Hs1. by apply (DFS_grows_Ok _ _ _ _ _ _ _ Hcol).
  - apply Hrow_grows.
Qed.

End Completeness.

(** ** The set returned *)

Section Answer.


Lemma join_nonempty ks : 0 < String.length (join ks) → ks ≠ [].
Proof. by destruct ks; [simpl; lia|]. Qed.

(** Every word that a simple path spells along keys leading to a terminal
    node is in the set returned. *)
Lemma generateValidWords_at_complete depth b d b' ws w :
  generateValidWords_at depth b d = Ok (b', Words ws) →
  found_ok (mkGenerator (Trie d) validBoardSize validBoardSize) b w →
  w ∈ ws.
Proof.
  destruct (generateValidWords_at_cases depth b d) as [[-> _]|(row0 & _ & _ & _ & ->)]; [done|].
  intros Hrun (path & ks & n & Hpath & Hlet & Hks & -> & Hwalk & Hvalid & Hlen).
  destruct (findValidWords _ depth (mkState b ∅)) as [st| |] eqn:Hfind;
    simpl in Hrun; [|done..].
  injection Hrun as _ <-.
  apply (findValidWords_complete _ _ _ _ path ks Hfind).
  - intros ->. simpl in Hlet. simplify_eq. simpl in Hlen.
    unfold minimumValidWordLength in Hlen. lia.
  - split_and!; try done. by exists n.
Qed.

End Answer.





(** X11.  [getValidWords] only adds to [self.validWords]: a word in the set
    before the call is in it afterwards. *)
Theorem getValidWords_accumulates g depth st st' :
  getValidWords g depth st = Ok st' → validWords st ⊆ validWords st'.
Proof. apply findValidWords_grows. Qed.

Lemma getValidWords_accumulates_witness :
  ({[ "OLD" ]} : gset string) ⊆ {[ "CAT"; "OLD" ]}.
Proof.
  refine (getValidWords_accumulates (mkGenerator (Trie ["CAT"]) 4 4) 16
            (mkState sample_board {[ "OLD" ]})
            (mkState sample_board {[ "CAT"; "OLD" ]}) _).
  vm_compute. reflexivity.
Defined.

(** X12.  A dictionary with no entry of three characters or more - the empty
    dictionary among them - gives the empty set. *)
Theorem short_dictionary_finds_nothing b d b' ws :
  Forall (λ u, String.length u < minimumValidWordLength) d →
  generateValidWords b d = Ok (b', Words ws) → ws = ∅.
Proof.
  intros Hshort Hrun. apply set_eq. intros w. split; [|by intros ?%not_elem_of_empty].
  intros Hw. exfalso.
  pose proof (generateValidWords_at_found _ _ _ _ _ _ Hrun Hw) as Hfound.
  apply (found_ok_entry _ _ d) in Hfound as (u & path & Hu & Hlen & _); [|done].
  rewrite Forall_forall in Hshort. specialize (Hshort u Hu). lia.
Qed.

Lemma short_dictionary_finds_nothing_witness : (∅ : gset string) = ∅.
Proof.
  apply (short_dictionary_finds_nothing sample_board ["AT"; "TO"] sample_board ∅).
  - repeat apply Forall_cons_2; try apply Forall_nil_2; vm_compute; lia.
  - vm_compute. reflexivity.
Defined.

(** X13.  Every word returned is in uppercase. *)
Theorem returned_words_uppercase b d b' ws w :
  generateValidWords b d = Ok (b', Words ws) → w ∈ ws → upper w = w.
Proof.
  intros Hrun Hw.
  pose proof (generateValidWords_at_found _ _ _ _ _ _ Hrun Hw) as Hfound.
  apply (found_ok_entry _ _ d) in Hfound as (u & path & _ & _ & -> & _); [|done].
  apply upper_idemp.
Qed.

Lemma returned_words_uppercase_witness : upper "CAT" = "CAT".
Proof.
  apply (returned_words_uppercase lowercase_board ["cat"] sample_board {[ "CAT" ]} "CAT").
  - vm_compute. reflexivity.
  - vm_compute. reflexivity.
Defined.

(** X14.  Entries appended to the dictionary never cost a word: what is
    returned for [d] is returned for [d ++ d'] too. *)
Theorem appended_entries_keep_words b d d' b1 ws b2 ws' :
  generateValidWords b d = Ok (b1, Words ws) →
  generateValidWords b (d ++ d') = Ok (b2, Words ws') →
  ws ⊆ ws'.
Proof.
  intros Hrun Hrun' w Hw.
  pose proof (generateValidWords_at_found _ _ _ _ _ _ Hrun Hw)
    as (path & ks & n & Hpath & Hlet & Hks & -> & Hwalk & Hvalid & Hlen).
  eapply generateValidWords_at_complete; [exact Hrun'|].
  simpl in Hwalk.
  destruct (buildRoot_keeps_valid d' _ _ _ Hwalk Hvalid) as (n' & Hwalk' & Hvalid').
  exists path, ks, n'. split_and!; try done.
  simpl. unfold Trie. by rewrite TrieFacts.buildRoot_app.
Qed.

Lemma appended_entries_keep_words_witness :
  ({[ "CAT" ]} : gset string) ⊆ {[ "CAT"; "CATS" ]}.
Proof.
  apply (appended_entries_keep_words sample_board ["CAT"] ["CATS"]
           sample_board {[ "CAT" ]} sample_board {[ "CAT"; "CATS" ]}).
  - vm_compute. reflexivity.
  - vm_compute. reflexivity.
Defined.

(** ** The entry point *)

(** X15.  A board that does not have four rows, or whose first row does not
    have four cells, gets the message whatever the dictionary, and is handed
    back untouched; the empty board is among them, [board[0]] not being
    evaluated then. *)
Theorem wrong_size_rejected b d :
  length b ≠ validBoardSize
  ∨ (∃ row0, b !! 0 = Some row0 ∧ length row0 ≠ validBoardSize) →
  generateValidWords b d = Ok (b, Message invalid_board_size).
Proof.
  intros Hbad. unfold generateValidWords.
  destruct (generateValidWords_at_cases (cell_count b) b d)
    as [[-> _]|(row0 & Hlen & Hrow0 & Hlen0 & _)]; [done|].
  destruct Hbad as [?|(r & ? & ?)]; [done|by simplify_eq].
Qed.

Lemma wrong_size_rejected_witness :
  generateValidWords [] ["CAT"] = Ok ([], Message invalid_board_size)
  ∧ generateValidWords [["C";"A";"T"]; ["X";"X";"X";"X"]; ["X";"X";"X";"X"];
                         ["X";"X";"X";"X"]] ["CAT"]
    = Ok ([["C";"A";"T"]; ["X";"X";"X";"X"]; ["X";"X";"X";"X"]; ["X";"X";"X";"X"]],
          Message invalid_board_size).
Proof.
  split.
  - apply (wrong_size_rejected [] ["CAT"]). left. by vm_compute.
  - apply (wrong_size_rejected
      [["C";"A";"T"]; ["X";"X";"X";"X"]; ["X";"X";"X";"X"]; ["X";"X";"X";"X"]] ["CAT"]).
    right. eexists. split; [reflexivity|]. by vm_compute.
Defined.

(** X16.  A board of four rows whose first row has four cells and one of
    whose other rows has fewer makes [generateValidWords] raise [IndexError],
    whatever the dictionary. *)
Theorem short_row_raises b d row0 i r :
  length b = validBoardSize →
  b !! 0 = Some row0 → length row0 = validBoardSize →
  b !! i = Some r → length r < validBoardSize →
  generateValidWords b d = Raise IndexError.
Proof.
  intros Hlen Hrow0 Hlen0 Hr Hshort. unfold generateValidWords.
  pose proof (generateValidWords_at_fuel (cell_count b) b d (le_n _)) as Hfuel.
  destruct (generateValidWords_at_cases (cell_count b) b d)
    as [[_ [?|(r0 & ? & ?)]]|(r0 & _ & _ & _ & Heq)]; [done|by simplify_eq|].
  rewrite Heq in *. clear Heq.
  destruct (findValidWords _ (cell_count b) (mkState b ∅)) as [st| |] eqn:Hfind;
    [exfalso|by destruct e|done].
  pose proof (lookup_lt_Some _ _ _ Hr) as Hi. rewrite Hlen in Hi.
  unfold findValidWords in Hfind.
  refine (for_each_elem (λ s, norm (board s) = norm b) (λ _, False)
    _ _ (Z.of_nat i) _ _ _ _ _ _ Hfind eq_refl).
  - apply range_elem. simpl. lia.
  - intros row s s' Hrow Hs.
    refine (for_each_keeps (λ s, norm (board s) = norm b) _ _ _ _ _ Hrow Hs).
    intros col s1 s1' Hcol Hs1. by rewrite (DFS_norm_Ok _ _ _ _ _ _ _ _ Hcol).
  - intros s s' Hrow Hs.
    refine (for_each_elem (λ s, norm (board s) = norm b) (λ _, False)
      _ _ 3%Z _ _ _ _ _ _ Hrow Hs).
    + apply range_elem. simpl. unfold validBoardSize. lia.
    + intros col s1 s1' Hcol Hs1. by rewrite (DFS_norm_Ok _ _ _ _ _ _ _ _ Hcol).
    + intros s1 s1' Hcol Hs1.
      assert (getcell (board s1) (Z.of_nat i) 3 = Raise IndexError) as Hget.
      { rewrite getcell_resolve, (resolve_norm_eq _ _ _ _ Hs1). unfold resolve.
        rewrite index_in_range by lia. simpl. rewrite Nat2Z.id, Hr. simpl.
        unfold Py.index. unfold validBoardSize in Hshort.
        rewrite !bool_decide_eq_false_2 by lia. done. }
      destruct (cell_count b); simpl in Hcol; unfold DFS_body in Hcol;
        by rewrite Hget in Hcol.
    + done.
  - done.
Qed.

Lemma short_row_raises_witness :
  generateValidWords short_row_board ["CATS"; "DOG"] = Raise IndexError.
Proof.
  apply (short_row_raises short_row_board ["CATS"; "DOG"] ["C";"A";"T";"S"] 1
           ["X";"X";"X"]); try reflexivity.
  vm_compute. lia.
Defined.

(** ** Letter case *)

Lemma Trie_upper d : Trie (upper <$> d) = Trie d.
Proof.
  unfold Trie. generalize new_node. induction d as [|w d IH]; intros r; [done|].
  simpl. rewrite IH. f_equal. unfold buildRoot_step.
  by rewrite length_upper, upper_idemp.
Qed.




(** X18.  Nor does it see the case of the dictionary's letters: the
    uppercased dictionary gives the same result. *)
Theorem dictionary_case_insensitive b d :
  generateValidWords b (upper <$> d) = generateValidWords b d.
Proof.
  unfold generateValidWords, generateValidWords_at, new_generator.
  by rewrite Trie_upper.
Qed.

(** ** The board after the search *)

Section BoardAfter.

Context (g : ValidWordsGenerator).

Lemma uppercase_at_mark b i j v i' j' :
  upper v = v → uppercase_at i' j' b → uppercase_at i' j' (mark b i j v).
Proof.
  intros Hv Hb v'. rewrite cell_at_mark. case_decide as Heq; [|apply Hb].
  destruct (cell_at b i j); simpl; [|done]. by intros [= <-].
Qed.

Lemma DFS_body_uppercase self_DFS i j :
  (∀ r c t w s, res_sat (λ s', uppercase_at i j (board s) → uppercase_at i j (board s'))
                  (λ _, True) (self_DFS r c t w s)) →
  ∀ row col trie w st,
    res_sat (λ s', uppercase_at i j (board st) → uppercase_at i j (board s'))
      (λ _, True) (DFS_body g self_DFS row col trie w st).
Proof.
  intros Hrec row col trie w st. unfold DFS_body.
  destruct (getcell (board st) row col) as [s| |]; [|done..].
  cbn [mbind result_mbind result_bind]. case_bool_decide; [by simpl|].
  rewrite (setcell_resolve _ _ _ STAR).
  destruct (resolve (board st) row col) as [[i0 j0]|]; [|done].
  cbn [mbind result_mbind result_bind].
  eapply (res_sat_bind
    (λ st2, uppercase_at i j (board st) → uppercase_at i j (board st2))).
  - destruct (children trie !! upper s) as [child|].
    + apply for_each_sat.
      * intros cell s2 _ Hs2. eapply res_sat_mono; [apply Hrec| |done].
        intros s3 Hs3. simpl in Hs3. auto.
      * intros Hb. by apply uppercase_at_mark.
    + simpl. intros Hb. by apply uppercase_at_mark.
  - intros st2 Hst2. rewrite setcell_resolve.
    destruct (resolve (board st2) row col) as [[i2 j2]|]; [|done].
    simpl. intros Hb. apply uppercase_at_mark; [apply upper_idemp|auto].
Qed.

(** A cell without lowercase letters stays so through [DFS]. *)
Lemma DFS_uppercase depth i j : ∀ row col trie w st,
  res_sat (λ s', uppercase_at i j (board st) → uppercase_at i j (board s'))
    (λ _, True) (DFS g depth row col trie w st).
Proof.
  induction depth as [|d IH]; simpl; apply DFS_body_uppercase; [done|apply IH].
Qed.

Lemma DFS_uppercase_Ok depth i j row col trie w st st' :
  DFS g depth row col trie w st = Ok st' →
  uppercase_at i j (board st) → uppercase_at i j (board st').
Proof.
  intros Hrun. pose proof (DFS_uppercase depth i j row col trie w st) as H.
  by rewrite Hrun in H.
Qed.

(** After [DFS] the cell it was called at holds no lowercase letter. *)
Lemma DFS_uppercase_here depth row col trie w st st' i j :
  DFS g depth row col trie w st = Ok st' →
  resolve (board st) row col = Some (i, j) →
  uppercase_at i j (board st').
Proof.
  intros Hrun Hres.
  pose proof (DFS_norm_Ok g _ _ _ _ _ _ _ Hrun) as Hn.
  assert (∀ self_DFS, DFS_body g self_DFS row col trie w st = Ok st' →
    uppercase_at i j (board st')) as Hbody.
  { intros self_DFS Hb. unfold DFS_body in Hb.
    rewrite getcell_resolve, Hres in Hb.
    destruct (cell_at (board st) i j) as [s|] eqn:Hs; [|done].
    cbn [mbind result_mbind result_bind] in Hb.
    case_bool_decide as Hstar.
    { injection Hb as <-. intros v Hv. rewrite Hs in Hv. by simplify_eq. }
    destruct (setcell (board st) row col STAR) as [b1| |]; [|done..].
    cbn [mbind result_mbind result_bind] in Hb.
    match type of Hb with
    | (?m ≫= _) = _ => destruct m as [st2| |]
    end; cbn [mbind result_mbind result_bind] in Hb; [|done..].
    rewrite setcell_resolve in Hb.
    destruct (resolve (board st2) row col) as [[i2 j2]|] eqn:Hres2; [|done].
    simpl in Hb. injection Hb as <-. simpl in *.
    assert ((i2, j2) = (i, j)) as [= -> ->].
    { apply (inj Some). rewrite <- Hres2, <- Hres.
      rewrite <- (resolve_mark (board st2) i2 j2 (upper s)).
      by apply resolve_norm_eq. }
    intros v. rewrite cell_at_mark, decide_True by done.
    destruct (cell_at (board st2) i j); simpl; [|done].
    intros [= <-]. apply upper_idemp. }
  destruct depth; simpl in Hrun; by eapply Hbody.
Qed.

(** After [findValidWords] no cell of the grid holds a lowercase letter. *)
Lemma findValidWords_uppercase depth st st' row col i j :
  findValidWords g depth st = Ok st' →
  in_grid (rowLen g) (colLen g) (row, col) →
  resolve (board st) row col = Some (i, j) →
  uppercase_at i j (board st').
Proof.
  intros Hrun [Hrow Hcol] Hres. simpl in Hrow, Hcol. unfold findValidWords in Hrun.
  assert (∀ r s s',
    Py.for_each (Py.range (colLen g))
      (λ c, DFS g depth r c (wordTrie g) "") s = Ok s' →
    norm (board s) = norm (board st) → norm (board s') = norm (board st)) as Hrow_norm.
  { intros r s s' Hr Hs.
    refine (for_each_keeps (λ s, norm (board s) = norm (board st)) _ _ _ _ _ Hr Hs).
    intros c s1 s1' Hc Hs1. by rewrite (DFS_norm_Ok _ _ _ _ _ _ _ _ Hc). }
  assert (∀ r s s',
    Py.for_each (Py.range (colLen g))
      (λ c, DFS g depth r c (wordTrie g) "") s = Ok s' →
    uppercase_at i j (board s) → uppercase_at i j (board s')) as Hrow_keeps.
  { intros r s s' Hr Hs.
    refine (for_each_keeps (λ s, uppercase_at i j (board s)) _ _ _ _ _ Hr Hs).
    intros c s1 s1' Hc Hs1. by eapply DFS_uppercase_Ok. }
  refine (for_each_elem (λ s, norm (board s) = norm (board st))
    (λ s, uppercase_at i j (board s)) _ _ row _ _ _ _ _ _ Hrun eq_refl).
  - by apply range_elem.
  - apply Hrow_norm.
  - intros s s' Hr Hs.
    refine (for_each_elem (λ s, norm (board s) = norm (board st))
      (λ s, uppercase_at i j (board s)) _ _ col _ _ _ _ _ _ Hr Hs).
    + by apply range_elem.
    + intros c s1 s1' Hc Hs1. by rewrite (DFS_norm_Ok _ _ _ _ _ _ _ _ Hc).
    + intros s1 s1' Hc Hs1. eapply DFS_uppercase_here; [exact Hc|].
      by rewrite (resolve_norm_eq _ _ _ _ Hs1).
    + intros c s1 s1' Hc Hs1. by eapply DFS_uppercase_Ok.
  - apply Hrow_keeps.
Qed.

End BoardAfter.

Lemma norm_fixed b :
  (∀ i j v, cell_at b i j = Some v → upper v = v) → norm b = b.
Proof.
  intros Hb. unfold norm. apply list_eq. intros i. rewrite list_lookup_fmap.
  destruct (b !! i) as [r|] eqn:Hr; [|done]. simpl. f_equal.
  unfold norm_row. apply list_eq. intros j. rewrite list_lookup_fmap.
  destruct (r !! j) as [v|] eqn:Hv; [|done]. simpl. f_equal.
  apply (Hb i j). unfold cell_at. by rewrite Hr.
Qed.

Lemma resolve_of_nat b i j v :
  cell_at b i j = Some v → resolve b (Z.of_nat i) (Z.of_nat j) = Some (i, j).
Proof.
  unfold cell_at, resolve. intros Hc.
  destruct (b !! i) as [r|] eqn:Hr; [|done]. simpl in Hc.
  pose proof (lookup_lt_Some _ _ _ Hr). pose proof (lookup_lt_Some _ _ _ Hc).
  rewrite index_in_range by lia. simpl. rewrite Nat2Z.id, Hr. simpl.
  rewrite index_in_range by lia. simpl. by rewrite Nat2Z.id.
Qed.

(** X19.  On a board of four rows of four cells, [generateValidWords] hands
    the board back with every cell uppercased: the '*' marks are gone, cells
    that held '*' at the call still do, and letters differ from the original
    ones in case only. *)
Theorem board_returned_uppercased b d b' a :
  is_4x4 b → generateValidWords b d = Ok (b', a) → b' = norm b.
Proof.
  intros [Hlen Hrows] Hrun.
  pose proof (generateValidWords_at_same_norm _ _ _ _ _ Hrun) as Hn.
  rewrite <- Hn. symmetry. apply norm_fixed. intros i j v Hv.
  unfold generateValidWords in Hrun.
  destruct (generateValidWords_at_cases (cell_count b) b d)
    as [[_ [?|(r0 & Hr0 & Hlen0)]]|(r0 & _ & _ & _ & Heq)].
  - done.
  - rewrite Forall_forall in Hrows. destruct Hlen0. apply Hrows.
    by eapply list_elem_of_lookup_2.
  - rewrite Heq in Hrun.
    destruct (findValidWords _ (cell_count b) (mkState b ∅)) as [st| |] eqn:Hfind;
      simpl in Hrun; [|done..].
    injection Hrun as <- _.
    assert (∃ v0, cell_at b i j = Some v0) as [v0 Hv0].
    { pose proof (cell_at_norm b i j) as Hb. rewrite <- Hn, cell_at_norm, Hv in Hb.
      destruct (cell_at b i j) as [v0|]; [by exists v0|done]. }
    refine (findValidWords_uppercase _ _ _ _ (Z.of_nat i) (Z.of_nat j) i j
      Hfind _ _ v Hv).
    + unfold cell_at in Hv0. destruct (b !! i) as [r|] eqn:Hr; [|done].
      simpl in Hv0. pose proof (lookup_lt_Some _ _ _ Hr) as Hi.
      pose proof (lookup_lt_Some _ _ _ Hv0) as Hj.
      rewrite Forall_forall in Hrows.
      rewrite (Hrows r) in Hj by (by eapply list_elem_of_lookup_2).
      rewrite Hlen in Hi. split; simpl; lia.
    + simpl. by eapply resolve_of_nat.
Qed.

Lemma board_returned_uppercased_witness : sample_board = norm lowercase_board.
Proof.
  apply (board_returned_uppercased lowercase_board ["cat"] sample_board
           (Words {[ "CAT" ]})).
  - split; [reflexivity|]. repeat apply Forall_cons_2; try apply Forall_nil_2; reflexivity.
  - vm_compute. reflexivity.
Defined.

(** ** Boards with longer rows *)

Section WideBoards.

(** Reading a cell of the grid on a board whose rows have at least four
    cells each. *)
Lemma getcell_in_grid b row col :
  length b = validBoardSize → Forall (λ r, validBoardSize ≤ length r) b →
  in_grid validBoardSize validBoardSize (row, col) →
  ∃ r v, b !! Z.to_nat row = Some r ∧ r !! Z.to_nat col = Some v
         ∧ resolve b row col = Some (Z.to_nat row, Z.to_nat col)
         ∧ getcell b row col = Ok v.
Proof.
  intros Hlen Hrows [Hr Hc]. simpl in Hr, Hc.
  destruct (lookup_lt_is_Some_2 b (Z.to_nat row)) as [r Hrow]; [lia|].
  rewrite Forall_forall in Hrows.
  pose proof (Hrows r (list_elem_of_lookup_2 _ _ _ Hrow)) as Hlenr.
  destruct (lookup_lt_is_Some_2 r (Z.to_nat col)) as [v Hv]; [lia|].
  assert (resolve b row col = Some (Z.to_nat row, Z.to_nat col)) as Hres.
  { unfold resolve. rewrite index_in_range by lia. simpl. rewrite Hrow. simpl.
    by rewrite index_in_range by lia. }
  exists r, v. split_and!; try done.
  rewrite getcell_resolve, Hres. unfold cell_at. rewrite Hrow. simpl. by rewrite Hv.
Qed.

Lemma wide_board_indexable t b :
  length b = validBoardSize → Forall (λ r, validBoardSize ≤ length r) b →
  indexable (mkGenerator t validBoardSize validBoardSize) b.
Proof.
  intros Hlen Hrows [row col] Hrc.
  destruct (getcell_in_grid b row col Hlen Hrows Hrc) as (r & v & _ & _ & Hres & _).
  simpl. by rewrite Hres.
Qed.

Lemma wide_board_returns b d row0 :
  length b = validBoardSize → Forall (λ r, validBoardSize ≤ length r) b →
  b !! 0 = Some row0 → length row0 = validBoardSize →
  ∃ b' ws, generateValidWords b d = Ok (b', Words ws).
Proof.
  intros Hlen Hrows Hrow0 Hlen0. unfold generateValidWords.
  pose proof (generateValidWords_at_fuel (cell_count b) b d (le_n _)) as Hne.
  destruct (generateValidWords_at_cases (cell_count b) b d)
    as [[_ [?|(r0 & ? & ?)]]|(r0 & _ & _ & _ & Heq)]; [done|by simplify_eq|].
  rewrite Heq in *.
  pose proof (findValidWords_noraise (mkGenerator (Trie d) validBoardSize validBoardSize)
    (cell_count b) (mkState b ∅) (wide_board_indexable _ _ Hlen Hrows)) as Hf.
  destruct (findValidWords _ _ (mkState b ∅)) as [st| |]; simpl in *;
    [by eexists _, _|done..].
Qed.

Lemma take_rows_4x4 b :
  length b = validBoardSize → Forall (λ r, validBoardSize ≤ length r) b →
  is_4x4 (take validBoardSize <$> b).
Proof.
  intros Hlen Hrows. split; [by rewrite length_fmap|].
  apply Forall_fmap. eapply Forall_impl; [exact Hrows|].
  intros r Hr. simpl. by apply length_take_le.
Qed.

Lemma getcell_take_rows b row col :
  length b = validBoardSize → Forall (λ r, validBoardSize ≤ length r) b →
  in_grid validBoardSize validBoardSize (row, col) →
  getcell (take validBoardSize <$> b) row col = getcell b row col.
Proof.
  intros Hlen Hrows Hrc.
  destruct (getcell_in_grid b row col Hlen Hrows Hrc) as (r & v & Hr & Hv & _ & ->).
  destruct (take_rows_4x4 b Hlen Hrows) as [Hlen' Hrows'].
  destruct (getcell_in_grid (take validBoardSize <$> b) row col Hlen')
    as (r' & v' & Hr' & Hv' & _ & ->); [|done|].
  { eapply Forall_impl; [exact Hrows'|]. intros ? ->. done. }
  rewrite list_lookup_fmap, Hr in Hr'. simpl in Hr'. injection Hr' as <-.
  destruct Hrc as [_ Hc]. simpl in Hc.
  rewrite lookup_take_lt in Hv' by lia. congruence.
Qed.

Lemma letters_take_rows b path :
  length b = validBoardSize → Forall (λ r, validBoardSize ≤ length r) b →
  Forall (in_grid validBoardSize validBoardSize) path →
  letters (take validBoardSize <$> b) path = letters b path.
Proof.
  intros Hlen Hrows Hpath. induction Hpath as [|[row col] path Hp Hpath IH]; [done|].
  simpl. by rewrite IH, getcell_take_rows.
Qed.

Lemma found_ok_take_rows t b w :
  length b = validBoardSize → Forall (λ r, validBoardSize ≤ length r) b →
  found_ok (mkGenerator t validBoardSize validBoardSize) (take validBoardSize <$> b) w
  ↔ found_ok (mkGenerator t validBoardSize validBoardSize) b w.
Proof.
  intros Hlen Hrows.
  split; intros (path & ks & n & Hpath & Hlet & Hrest); exists path, ks, n;
    (split; [done|]); (split; [|done]); pose proof Hpath as (_ & Hgrid & _);
    simpl in Hgrid.
  - by rewrite <- (letters_take_rows b path).
  - by rewrite (letters_take_rows b path).
Qed.

End WideBoards.

(** X20.  Cells beyond the fourth column are never looked at: a board of
    four rows whose first row has four cells and whose other rows have four
    or more gets a set of words, the set its first four columns get. *)
Theorem columns_beyond_fourth_ignored b d row0 :
  length b = validBoardSize → Forall (λ r, validBoardSize ≤ length r) b →
  b !! 0 = Some row0 → length row0 = validBoardSize →
  ∃ b1 b2 ws,
    generateValidWords b d = Ok (b1, Words ws)
    ∧ generateValidWords (take validBoardSize <$> b) d = Ok (b2, Words ws).
Proof.
  intros Hlen Hrows Hrow0 Hlen0.
  destruct (wide_board_returns b d row0 Hlen Hrows Hrow0 Hlen0) as (b1 & ws & Hrun).
  destruct (generateValidWords_total (take validBoardSize <$> b) d
    (take_rows_4x4 b Hlen Hrows)) as (b2 & ws2 & Hrun2).
  exists b1, b2, ws. split; [done|]. rewrite Hrun2. do 3 f_equal.
  apply set_eq. intros w. split; intros Hw.
  - eapply generateValidWords_at_complete; [exact Hrun|].
    apply found_ok_take_rows; [done..|]. by eapply generateValidWords_at_found.
  - eapply generateValidWords_at_complete; [exact Hrun2|].
    apply found_ok_take_rows; [done..|]. by eapply generateValidWords_at_found.
Qed.

Lemma columns_beyond_fourth_ignored_witness :
  ∃ b1 b2 ws,
    generateValidWords long_row_board ["CATS"; "TSS"] = Ok (b1, Words ws)
    ∧ generateValidWords (take validBoardSize <$> long_row_board) ["CATS"; "TSS"]
      = Ok (b2, Words ws).
Proof.
  apply (columns_beyond_fourth_ignored long_row_board ["CATS"; "TSS"] ["C";"A";"T";"S"]);
    try reflexivity.
  repeat apply Forall_cons_2; try apply Forall_nil_2; vm_compute; lia.
Defined.

(** X21.  On a board of four rows of four cells [generateValidWords] raises
    nothing and returns a set of words, never the message. *)
Theorem four_by_four_returns_words b d :
  is_4x4 b → ∃ b' ws, generateValidWords b d = Ok (b', Words ws).
Proof. apply generateValidWords_total. Qed.

Lemma four_by_four_returns_words_witness :
  ∃ b' ws, generateValidWords snake_board ["ABCDEFGHIJKLMNOP"] = Ok (b', Words ws).
Proof.
  apply (four_by_four_returns_words snake_board ["ABCDEFGHIJKLMNOP"]).
  split; [reflexivity|]. repeat apply Forall_cons_2; try apply Forall_nil_2; reflexivity.
Defined.
